(** * supabase-jwt: the credential lifecycle of [src/pages/index.tsx]

    A shallow embedding of the logic of the page: the key guard
    [checkForServiceRole], the decode expression of [SessionPanel], the
    client factory (the [useMemo] of [Home]), the auth-event callback and
    its subscription effect, the two input handlers [updateKey] and
    [updateUrl], the checkbox handler of [AuthPanel], and what [Home]
    renders.

    JavaScript strings are sequences of UTF-16 code units, so they are
    lists of [N] here; [js "text"] is the string of an ASCII literal.
    Exceptions are explicit: an expression evaluates to a [completion],
    and stateful code runs in a monad [M] over the state of the page in
    which the state written before a throw is kept, as in JavaScript. *)

From Stdlib Require Import NArith Lia.
From stdpp Require Import base option list strings gmap.

Set Warnings "-register-all".
Local Open Scope N_scope.

(** ** JavaScript strings *)

Abbreviation jsstring := (list N).

Definition js (s : string) : jsstring :=
  (fun a => N.of_nat (Ascii.nat_of_ascii a)) <$> String.list_ascii_of_string s.

(** [s.split(sep)] for a one-character separator: the segments between
    the occurrences of [sep]; the empty string splits into one empty
    segment. *)
Fixpoint split (sep : N) (s : jsstring) : list jsstring :=
  match s with
  | [] => [[]]
  | c :: s' =>
      if c =? sep then [] :: split sep s'
      else match split sep s' with
           | seg :: segs => (c :: seg) :: segs
           | [] => [[c]]
           end
  end.

Definition dot : N := 46.

(** ** Exceptions and completions *)

(** A thrown value, with the two properties the page can observe. *)
Record exn : Type := Exn { exn_name : jsstring; message : jsstring }.

(** [new Error(message)] *)
Definition Error (message : jsstring) : exn := Exn (js "Error") message.

(** The TypeError of a property read on [null]. *)
Definition TypeError_null : exn :=
  Exn (js "TypeError") (js "Cannot read properties of null (reading 'role')").

Inductive completion (A : Type) : Type :=
| Normal (a : A)
| Throw (e : exn).
Arguments Normal {A} a.
Arguments Throw {A} e.

#[global] Instance completion_ret : MRet completion := fun A a => Normal a.

#[global] Instance completion_bind : MBind completion := fun A B k c =>
  match c with
  | Normal a => k a
  | Throw e => Throw e
  end.

#[global] Instance completion_fmap : FMap completion := fun A B f c =>
  match c with
  | Normal a => Normal (f a)
  | Throw e => Throw e
  end.

(** [try { body } catch (err) { handler(err) }] *)
Definition try_catch {A} (body : completion A) (handler : exn → completion A)
  : completion A :=
  match body with
  | Normal a => Normal a
  | Throw e => handler e
  end.

(** ** The values JSON.parse produces *)

(** A number is kept by its literal text: no property below depends on the double
    it denotes. An object keeps its members in source order; a key that
    occurs twice is read at its last occurrence. *)
Inductive value : Type :=
| JNull
| JBool (b : bool)
| JNumber (literal : jsstring)
| JString (s : jsstring)
| JArray (items : list value)
| JObject (members : list (jsstring * value)).

(** The own property [name] of a parsed object. *)
Fixpoint own_property (name : jsstring) (members : list (jsstring * value))
  : option value :=
  match members with
  | [] => None
  | (k, v) :: rest =>
      match own_property name rest with
      | Some v' => Some v'
      | None => if bool_decide (k = name) then Some v else None
      end
  end.

(** [data.role]: the read throws a TypeError on [null]; on a boolean,
    number, string or array the name [role] is found neither on the value
    nor on its prototype, so the result is [undefined] ([None]); on an
    object it is the own property, [undefined] when there is none. *)
Definition get_role (data : value) : completion (option value) :=
  match data with
  | JNull => Throw TypeError_null
  | JObject members => Normal (own_property (js "role") members)
  | _ => Normal None
  end.

(** [v === "literal"] for a value that may be [undefined]. *)
Definition strict_equals_string (v : option value) (literal : jsstring) : bool :=
  match v with
  | Some (JString s) => bool_decide (s = literal)
  | _ => false
  end.

(** ** The built-ins of the platform

    [atob], [JSON.parse] and the argument check of the client
    constructor of the backend library are not code of this repository:
    the page is verified for every implementation of them. [browser],
    below, is the implementation the concrete runs use. A client is an
    object, known by its reference. *)

Inductive SupabaseClient : Type :=
| client_ref (id : nat).

Class Platform : Type := {
  atob : jsstring → completion jsstring;
  JSON_parse : jsstring → completion value;
  (** the exception the constructor throws on these arguments, if any *)
  createClient_throws : jsstring → jsstring → option exn
}.

(** ** Key Guard *)

(** An argument that may be [undefined] reaches [atob] through ToString. *)
Definition to_string_arg (arg : option jsstring) : jsstring :=
  default (js "undefined") arg.

Section KeyGuard.
Context `{Platform}.

Definition checkForServiceRole (jwt : jsstring) : completion bool :=
  let split := split dot jwt in
  if negb (length split =? 3)%nat then
    Normal false
  else
    try_catch
      (let payload := split !! 1%nat in
       json ← atob (to_string_arg payload);
       data ← JSON_parse json;
       role ← get_role data;
       Normal (strict_equals_string role (js "service_role")))
      (fun err => Normal false).

(** The decode expression of SessionPanel,
    [JSON.parse(atob(session.access_token.split(".")[1]))]. *)
Definition decodeClaims (access_token : jsstring) : completion value :=
  json ← atob (to_string_arg (split dot access_token !! 1%nat));
  JSON_parse json.
End KeyGuard.

(** ** The browser's built-ins

    [atob] is the forgiving-base64 decode of the HTML standard and
    [JSON.parse] the JSON grammar of ECMA-404, both on code units. The
    message texts of the exceptions differ between engines; no statement
    below depends on them. *)

Module Browser.

Definition InvalidCharacterError : exn :=
  Exn (js "InvalidCharacterError")
      (js "The string to be decoded is not correctly encoded.").

Definition SyntaxError : exn :=
  Exn (js "SyntaxError") (js "Unexpected token in JSON").

Definition is_ascii_whitespace (c : N) : bool :=
  (c =? 9) || (c =? 10) || (c =? 12) || (c =? 13) || (c =? 32).

(** The value of a character of the alphabet [A-Za-z0-9+/]. *)
Definition base64_value (c : N) : option N :=
  if (65 <=? c) && (c <=? 90) then Some (c - 65)
  else if (97 <=? c) && (c <=? 122) then Some (c - 71)
  else if (48 <=? c) && (c <=? 57) then Some (c + 4)
  else if c =? 43 then Some 62
  else if c =? 47 then Some 63
  else None.

(** One or two [=] at the end are removed, from a text whose length is
    a multiple of four only. *)
Definition remove_padding (s : jsstring) : jsstring :=
  if (length s mod 4 =? 0)%nat then
    match reverse s with
    | c1 :: c2 :: r =>
        if (c1 =? 61) && (c2 =? 61) then reverse r
        else if c1 =? 61 then reverse (c2 :: r)
        else s
    | _ => s
    end
  else s.

(** Four characters give three bytes; a tail of three gives two bytes
    and a tail of two gives one, the spare bits being dropped. *)
Fixpoint decode_sextets (l : list N) : jsstring :=
  match l with
  | a :: b :: c :: d :: rest =>
      let n := N.lor (N.shiftl a 18) (N.lor (N.shiftl b 12) (N.lor (N.shiftl c 6) d)) in
      N.shiftr n 16 :: N.land (N.shiftr n 8) 255 :: N.land n 255 :: decode_sextets rest
  | [a; b; c] =>
      let n := N.shiftr (N.lor (N.shiftl a 12) (N.lor (N.shiftl b 6) c)) 2 in
      [N.shiftr n 8; N.land n 255]
  | [a; b] =>
      [N.shiftr (N.lor (N.shiftl a 6) b) 4]
  | _ => []
  end.

Definition atob (data : jsstring) : completion jsstring :=
  let data := filter (fun c => negb (is_ascii_whitespace c)) data in
  let data := remove_padding data in
  if (length data mod 4 =? 1)%nat then Throw InvalidCharacterError
  else match mapM base64_value data with
       | None => Throw InvalidCharacterError
       | Some sextets => Normal (decode_sextets sextets)
       end.

(** *** JSON.parse *)

Definition is_json_whitespace (c : N) : bool :=
  (c =? 9) || (c =? 10) || (c =? 13) || (c =? 32).

Fixpoint skip_whitespace (s : jsstring) : jsstring :=
  match s with
  | c :: rest => if is_json_whitespace c then skip_whitespace rest else s
  | [] => []
  end.

Definition is_digit (c : N) : bool := (48 <=? c) && (c <=? 57).

Definition hex_value (c : N) : option N :=
  if is_digit c then Some (c - 48)
  else if (65 <=? c) && (c <=? 70) then Some (c - 55)
  else if (97 <=? c) && (c <=? 102) then Some (c - 87)
  else None.

(** The character a one-letter escape stands for: the quote, the
    backslash and the solidus, and [b], [f], [n], [r], [t]. *)
Definition escape_value (c : N) : option N :=
  if (c =? 34) || (c =? 92) || (c =? 47) then Some c
  else if c =? 98 then Some 8
  else if c =? 102 then Some 12
  else if c =? 110 then Some 10
  else if c =? 114 then Some 13
  else if c =? 116 then Some 9
  else None.

(** The characters of a string after its opening quote, and the text
    after its closing quote. *)
Fixpoint string_chars (s : jsstring) : option (jsstring * jsstring) :=
  match s with
  | [] => None
  | c :: rest =>
      if c =? 34 then Some ([], rest)
      else if c =? 92 then
        match rest with
        | [] => None
        | e :: rest' =>
            if e =? 117 then
              match rest' with
              | h1 :: h2 :: h3 :: h4 :: rest'' =>
                  a ← hex_value h1; b ← hex_value h2;
                  c ← hex_value h3; d ← hex_value h4;
                  '(str, after) ← string_chars rest'';
                  Some ((a * 4096 + b * 256 + c * 16 + d) :: str, after)
              | _ => None
              end
            else
              c ← escape_value e;
              '(str, after) ← string_chars rest';
              Some (c :: str, after)
        end
      else if c <? 32 then None
      else '(str, after) ← string_chars rest; Some (c :: str, after)
  end.

Fixpoint digits (s : jsstring) : jsstring * jsstring :=
  match s with
  | c :: rest =>
      if is_digit c then let '(ds, after) := digits rest in (c :: ds, after)
      else ([], s)
  | [] => ([], [])
  end.

(** One or more digits. *)
Definition digits1 (s : jsstring) : option (jsstring * jsstring) :=
  match digits s with
  | ([], _) => None
  | (ds, after) => Some (ds, after)
  end.

(** The text [s] without its first character when that is one of
    [chars]. *)
Definition optional (chars : list N) (s : jsstring) : jsstring * jsstring :=
  match s with
  | c :: rest => if bool_decide (c ∈ chars) then ([c], rest) else ([], s)
  | [] => ([], [])
  end.

(** The integer part of a number: a zero, or a digit from one to nine
    and any digits. *)
Definition number_int (s : jsstring) : option (jsstring * jsstring) :=
  match optional [48] s with
  | ([], _) => digits1 s
  | zero => Some zero
  end.

(** The fraction, if any: a point and one or more digits. *)
Definition number_frac (s : jsstring) : option (jsstring * jsstring) :=
  match optional [46] s with
  | ([], _) => Some ([], s)
  | (point, rest) => '(ds, after) ← digits1 rest; Some (point ++ ds, after)
  end.

(** The exponent, if any: [e] or [E], an optional sign and one or more
    digits. *)
Definition number_exp (s : jsstring) : option (jsstring * jsstring) :=
  match optional [101; 69] s with
  | ([], _) => Some ([], s)
  | (e, rest) =>
      let '(esign, rest) := optional [43; 45] rest in
      '(ds, after) ← digits1 rest; Some (e ++ esign ++ ds, after)
  end.

(** The text of a number, after an optional minus sign, and the text
    after it. *)
Definition number_literal (s : jsstring) : option (jsstring * jsstring) :=
  let '(sign, s) := optional [45] s in
  '(int, s) ← number_int s;
  '(frac, s) ← number_frac s;
  '(exp, s) ← number_exp s;
  Some (sign ++ int ++ frac ++ exp, s).

Inductive parsed (A : Type) : Type :=
| Parsed (a : A) (rest : jsstring)
| Unexpected
| NoFuel.
Arguments Parsed {A} a rest.
Arguments Unexpected {A}.
Arguments NoFuel {A}.

Definition parsed_map {A B} (f : A → B) (p : parsed A) : parsed B :=
  match p with
  | Parsed a rest => Parsed (f a) rest
  | Unexpected => Unexpected
  | NoFuel => NoFuel
  end.

Definition of_option {A} (o : option (A * jsstring)) : parsed A :=
  match o with
  | Some (a, rest) => Parsed a rest
  | None => Unexpected
  end.

(** [true], [false] and [null]. *)
Definition keyword (text : string) (v : value) (s : jsstring) : parsed value :=
  if bool_decide (take (length (js text)) s = js text)
  then Parsed v (drop (length (js text)) s)
  else Unexpected.

(** The text after [c], when [c] is the next character that is not
    whitespace. *)
Definition next_is (c : N) (s : jsstring) : option jsstring :=
  match skip_whitespace s with
  | x :: after => if x =? c then Some after else None
  | [] => None
  end.

(** Recursive descent; every call spends one unit of [fuel].
    [parse_elements] reads the elements of an array that has at least
    one, up to its closing bracket, and [parse_members] the members of
    such an object. *)
Fixpoint parse_value (fuel : nat) (s : jsstring) : parsed value :=
  match fuel with
  | O => NoFuel
  | S fuel =>
      match skip_whitespace s with
      | [] => Unexpected
      | c :: rest =>
          if c =? 123 then
            match next_is 125 rest with
            | Some after => Parsed (JObject []) after
            | None => parsed_map JObject (parse_members fuel rest)
            end
          else if c =? 91 then
            match next_is 93 rest with
            | Some after => Parsed (JArray []) after
            | None => parsed_map JArray (parse_elements fuel rest)
            end
          else if c =? 34 then
            of_option (prod_map JString id <$> string_chars rest)
          else if c =? 116 then keyword "true" (JBool true) (c :: rest)
          else if c =? 102 then keyword "false" (JBool false) (c :: rest)
          else if c =? 110 then keyword "null" JNull (c :: rest)
          else of_option (prod_map JNumber id <$> number_literal (c :: rest))
      end
  end
with parse_elements (fuel : nat) (s : jsstring) : parsed (list value) :=
  match fuel with
  | O => NoFuel
  | S fuel =>
      match parse_value fuel s with
      | Parsed v rest =>
          match next_is 44 rest with
          | Some after => parsed_map (cons v) (parse_elements fuel after)
          | None =>
              match next_is 93 rest with
              | Some after => Parsed [v] after
              | None => Unexpected
              end
          end
      | Unexpected => Unexpected
      | NoFuel => NoFuel
      end
  end
with parse_members (fuel : nat) (s : jsstring) : parsed (list (jsstring * value)) :=
  match fuel with
  | O => NoFuel
  | S fuel =>
      match next_is 34 s with
      | None => Unexpected
      | Some rest =>
          match string_chars rest with
          | None => Unexpected
          | Some (name, rest) =>
              match next_is 58 rest with
              | None => Unexpected
              | Some rest =>
                  match parse_value fuel rest with
                  | Parsed v rest =>
                      match next_is 44 rest with
                      | Some after =>
                          parsed_map (cons (name, v)) (parse_members fuel after)
                      | None =>
                          match next_is 125 rest with
                          | Some after => Parsed [(name, v)] after
                          | None => Unexpected
                          end
                      end
                  | Unexpected => Unexpected
                  | NoFuel => NoFuel
                  end
              end
          end
      end
  end.

(** A text of [n] characters needs no more than [2 * n + 1] calls in a
    row ([parse_value_fuel], below). *)
Definition JSON_parse (text : jsstring) : completion value :=
  match parse_value (2 * length text + 1) text with
  | Parsed v rest =>
      match skip_whitespace rest with
      | [] => Normal v
      | _ => Throw SyntaxError
      end
  | _ => Throw SyntaxError
  end.

(** The constructor of the backend library refuses an empty URL and an
    empty key. *)
Definition createClient_throws (supabaseUrl supabaseKey : jsstring) : option exn :=
  match supabaseUrl, supabaseKey with
  | [], _ => Some (Error (js "supabaseUrl is required."))
  | _, [] => Some (Error (js "supabaseKey is required."))
  | _, _ => None
  end.

End Browser.

#[global] Instance browser : Platform := {
  atob := Browser.atob;
  JSON_parse := Browser.JSON_parse;
  createClient_throws := Browser.createClient_throws
}.

(** ** The state of the page *)

Record Session : Type := {
  access_token : jsstring;
  user_email : option jsstring
}.

(** What [onAuthStateChange] returns, under [data.subscription]. *)
Record Subscription : Type := {
  sub_id : nat;
  sub_client : SupabaseClient
}.

(** The calls the page makes that are visible outside it, and the calls
    of its auth callback, in the order they happen. *)
Inductive Call : Type :=
| Alert (text : jsstring)
| SetItem (name text : jsstring)
| Subscribe (subscription : Subscription)
| Unsubscribe (subscription : Subscription)
| Callback (subscription : Subscription) (event : jsstring) (payload : option Session).

(** The cleanup function the effect returns,
    [() => { subscription.unsubscribe(); }], by the subscription it
    closes over. *)
Inductive Cleanup : Type :=
| unsubscribe_cleanup (subscription : Subscription).

(** The four state cells of [Home], the storage of the browser, the
    callbacks registered on the clients, what React remembers of the
    subscription effect, and the calls made so far. *)
Record World : Type := {
  session : option Session;
  error : option jsstring;
  url : option jsstring;
  key : option jsstring;
  localStorage : gmap jsstring jsstring;
  next_client : nat;
  emitters : list Subscription;
  next_subscription : nat;
  effect_deps : option (option SupabaseClient);
  effect_cleanup : option Cleanup;
  calls : list Call
}.

(** Stateful code: the state reached is kept when an exception is
    thrown. *)
Definition M (A : Type) : Type := World → completion A * World.

#[global] Instance M_ret : MRet M := fun A a w => (Normal a, w).

#[global] Instance M_bind : MBind M := fun A B k m w =>
  match m w with
  | (Normal a, w') => k a w'
  | (Throw e, w') => (Throw e, w')
  end.

Definition lift {A} (c : completion A) : M A := fun w => (c, w).

Definition try_catch_M {A} (body : M A) (handler : exn → M A) : M A := fun w =>
  match body w with
  | (Normal a, w') => (Normal a, w')
  | (Throw e, w') => handler e w'
  end.

Definition state_of {A} (r : completion A * World) : World := r.2.

Definition record_call (c : Call) : M unit := fun w =>
  (Normal (),
   {| session := session w; error := error w; url := url w; key := key w;
      localStorage := localStorage w; next_client := next_client w;
      emitters := emitters w; next_subscription := next_subscription w;
      effect_deps := effect_deps w; effect_cleanup := effect_cleanup w;
      calls := calls w ++ [c] |}).

Definition setSession (v : option Session) : M unit := fun w =>
  (Normal (),
   {| session := v; error := error w; url := url w; key := key w;
      localStorage := localStorage w; next_client := next_client w;
      emitters := emitters w; next_subscription := next_subscription w;
      effect_deps := effect_deps w; effect_cleanup := effect_cleanup w;
      calls := calls w |}).

Definition setError (v : option jsstring) : M unit := fun w =>
  (Normal (),
   {| session := session w; error := v; url := url w; key := key w;
      localStorage := localStorage w; next_client := next_client w;
      emitters := emitters w; next_subscription := next_subscription w;
      effect_deps := effect_deps w; effect_cleanup := effect_cleanup w;
      calls := calls w |}).

Definition setUrl (v : option jsstring) : M unit := fun w =>
  (Normal (),
   {| session := session w; error := error w; url := v; key := key w;
      localStorage := localStorage w; next_client := next_client w;
      emitters := emitters w; next_subscription := next_subscription w;
      effect_deps := effect_deps w; effect_cleanup := effect_cleanup w;
      calls := calls w |}).

Definition setKey (v : option jsstring) : M unit := fun w =>
  (Normal (),
   {| session := session w; error := error w; url := url w; key := v;
      localStorage := localStorage w; next_client := next_client w;
      emitters := emitters w; next_subscription := next_subscription w;
      effect_deps := effect_deps w; effect_cleanup := effect_cleanup w;
      calls := calls w |}).

(** [alert(text)] *)
Definition alert (text : jsstring) : M unit := record_call (Alert text).

(** [localStorage.setItem(name, text)] *)
Definition localStorage_setItem (name text : jsstring) : M unit := fun w =>
  record_call (SetItem name text)
    {| session := session w; error := error w; url := url w; key := key w;
       localStorage := <[name := text]> (localStorage w);
       next_client := next_client w;
       emitters := emitters w; next_subscription := next_subscription w;
       effect_deps := effect_deps w; effect_cleanup := effect_cleanup w;
       calls := calls w |}.

(** ** Credential Store *)

Definition URL_STORAGE_KEY : jsstring := js "SB_URL".
Definition KEY_STORAGE_KEY : jsstring := js "SB_KEY".

(** [window] is the storage of the browser, absent on the server;
    [getItem] gives [null] for a name that is not stored, which
    [?? undefined] turns into [undefined]. *)
Definition getCachedItem (window : option (gmap jsstring jsstring)) (name : jsstring)
  : option jsstring :=
  match window with
  | None => None
  | Some storage => storage !! name
  end.

(** The state of [Home] when it mounts. *)
Definition Home_init (window : option (gmap jsstring jsstring)) : World :=
  {| session := None;
     error := None;
     url := getCachedItem window URL_STORAGE_KEY;
     key := getCachedItem window KEY_STORAGE_KEY;
     localStorage := default ∅ window;
     next_client := 0;
     emitters := [];
     next_subscription := 0;
     effect_deps := None;
     effect_cleanup := None;
     calls := [] |}.

(** ** Token Decoder: the claims panel *)

Record SessionView : Type := {
  signed_in_as : option jsstring;
  token_text : jsstring;
  jwt_data : value
}.

Section SessionPanel.
Context `{Platform}.

(** The render of [SessionPanel]: the decode is evaluated in the JSX,
    outside any [try]. [JSON.stringify] of a parsed value does not
    throw and is left out. *)
Definition SessionPanel (session : Session) : completion SessionView :=
  data ← decodeClaims (access_token session);
  mret {| signed_in_as := user_email session;
          token_text := access_token session;
          jwt_data := data |}.
End SessionPanel.

(** ** Session Reconciler: the callback given to [onAuthStateChange] *)

Definition SIGNED_IN : jsstring := js "SIGNED_IN".
Definition TOKEN_REFRESHED : jsstring := js "TOKEN_REFRESHED".
Definition SIGNED_OUT : jsstring := js "SIGNED_OUT".

(** A session is an object or [null]; an object is truthy. *)
Definition truthy_object {A} (v : option A) : bool :=
  match v with
  | Some _ => true
  | None => false
  end.

Definition auth_callback (event : jsstring) (session : option Session) : M unit :=
  (if truthy_object session
      && (bool_decide (event = SIGNED_IN) || bool_decide (event = TOKEN_REFRESHED))
   then setSession session
   else mret ());;
  (if bool_decide (event = SIGNED_OUT)
   then setSession None
   else mret ()).

(** The state after the events of a list, delivered in order. *)
Definition reconcile (events : list (jsstring * option Session)) (w : World) : World :=
  foldl (fun w ev => state_of (auth_callback ev.1 ev.2 w)) w events.

(** ** Client Factory and the input handlers *)

(** A string cell that is neither [undefined] nor empty. *)
Definition truthy_string (v : option jsstring) : option jsstring :=
  match v with
  | Some (c :: s) => Some (c :: s)
  | _ => None
  end.

Definition service_role_warning : jsstring :=
  js "This is your service_role key - do not share this willy nilly. We only need your anon key. Input rejected".

Definition credentials_required : jsstring :=
  js "A valid Supabase Key and URL are required".

(** What the user types, one change of an input at a time. *)
Inductive Write : Type :=
| WriteKey (text : jsstring)
| WriteUrl (text : jsstring).

Section Home.
Context `{Platform}.

(** [createClient(url, key)]: the constructor throws or gives a new
    object. *)
Definition createClient (supabaseUrl supabaseKey : jsstring) : M SupabaseClient :=
  fun w =>
    match createClient_throws supabaseUrl supabaseKey with
    | Some e => (Throw e, w)
    | None =>
        (Normal (client_ref (next_client w)),
         {| session := session w; error := error w; url := url w; key := key w;
            localStorage := localStorage w; next_client := S (next_client w);
            emitters := emitters w; next_subscription := next_subscription w;
            effect_deps := effect_deps w; effect_cleanup := effect_cleanup w;
            calls := calls w |})
    end.

(** The function given to [useMemo]: the value of [supabase], with the
    error cell written on every path. *)
Definition supabase_memo : M (option SupabaseClient) := fun w =>
  match truthy_string (key w), truthy_string (url w) with
  | Some key, Some url =>
      try_catch_M
        (client ← createClient url key;
         setError None;;
         mret (Some client))
        (fun err => setError (Some (message err));; mret None) w
  | _, _ =>
      (setError (Some credentials_required);; mret None) w
  end.

Definition updateKey (key : jsstring) : M unit :=
  isServiceRole ← lift (checkForServiceRole key);
  if isServiceRole : bool then
    alert service_role_warning;;
    setKey (Some [])
  else
    setKey (Some key);;
    localStorage_setItem KEY_STORAGE_KEY key.

Definition updateUrl (url : jsstring) : M unit :=
  setUrl (Some url);;
  localStorage_setItem URL_STORAGE_KEY url.

Definition write (wr : Write) : M unit :=
  match wr with
  | WriteKey text => updateKey text
  | WriteUrl text => updateUrl text
  end.

Definition run_writes (writes : list Write) (w : World) : World :=
  foldl (fun w wr => state_of (write wr w)) w writes.
End Home.

(** ** The subscription effect

    The effect of [Home] and its cleanup are the code of the page. The
    two things around them are the contracts of the libraries: the
    client keeps the callbacks registered on it and calls those, in
    order, when it emits an event, [unsubscribe] taking the callback
    out; React runs the effect after the first render and after a
    render in which a dependency differs, the cleanup of the previous
    run first, and runs the cleanup when the component unmounts. *)

#[global] Instance SupabaseClient_eq_dec : EqDecision SupabaseClient.
Proof. solve_decision. Defined.

#[global] Instance Subscription_eq_dec : EqDecision Subscription.
Proof. solve_decision. Defined.

#[global] Instance Cleanup_eq_dec : EqDecision Cleanup.
Proof. solve_decision. Defined.

(** [client.auth.onAuthStateChange(callback)] *)
Definition onAuthStateChange (client : SupabaseClient) : M Subscription := fun w =>
  let subscription := {| sub_id := next_subscription w; sub_client := client |} in
  (Normal subscription,
   {| session := session w; error := error w; url := url w; key := key w;
      localStorage := localStorage w; next_client := next_client w;
      emitters := emitters w ++ [subscription];
      next_subscription := S (next_subscription w);
      effect_deps := effect_deps w; effect_cleanup := effect_cleanup w;
      calls := calls w ++ [Subscribe subscription] |}).

(** [subscription.unsubscribe()] *)
Definition unsubscribe (subscription : Subscription) : M unit := fun w =>
  (Normal (),
   {| session := session w; error := error w; url := url w; key := key w;
      localStorage := localStorage w; next_client := next_client w;
      emitters := filter (fun s => s ≠ subscription) (emitters w);
      next_subscription := next_subscription w;
      effect_deps := effect_deps w; effect_cleanup := effect_cleanup w;
      calls := calls w ++ [Unsubscribe subscription] |}).

(** The function given to [useEffect]. *)
Definition subscription_effect (supabase : option SupabaseClient) : M (option Cleanup) :=
  match supabase with
  | None => mret None
  | Some supabase =>
      subscription ← onAuthStateChange supabase;
      mret (Some (unsubscribe_cleanup subscription))
  end.

Definition run_cleanup (cleanup : option Cleanup) : M unit :=
  match cleanup with
  | Some (unsubscribe_cleanup subscription) => unsubscribe subscription
  | None => mret ()
  end.

Definition remember_effect (deps : option (option SupabaseClient))
    (cleanup : option Cleanup) : M unit := fun w =>
  (Normal (),
   {| session := session w; error := error w; url := url w; key := key w;
      localStorage := localStorage w; next_client := next_client w;
      emitters := emitters w; next_subscription := next_subscription w;
      effect_deps := deps; effect_cleanup := cleanup;
      calls := calls w |}).

(** React commits a render in which [useMemo] gave [supabase]. The
    second dependency, [supabase?.auth], is a property the client never
    reassigns: it differs exactly when [supabase] does. *)
Definition commit_effect (supabase : option SupabaseClient) : M unit := fun w =>
  if bool_decide (effect_deps w = Some supabase) then (Normal (), w)
  else
    (run_cleanup (effect_cleanup w);;
     cleanup ← subscription_effect supabase;
     remember_effect (Some supabase) cleanup) w.

(** React unmounts [Home]. *)
Definition unmount : M unit := fun w =>
  (run_cleanup (effect_cleanup w);;
   remember_effect None None) w.

(** [client] emits an auth event: the callbacks registered on it are
    called, in the order of their registration. *)
Definition emit (client : SupabaseClient) (event : jsstring)
    (payload : option Session) : M unit := fun w =>
  foldr
    (fun subscription rest =>
       record_call (Callback subscription event payload);;
       auth_callback event payload;;
       rest)
    (mret ())
    (filter (fun s => sub_client s = client) (emitters w)) w.

(** What happens to a mounted page, one step at a time. *)
Inductive Step : Type :=
| Render (supabase : option SupabaseClient)
| Unmount
| AuthEvent (client : SupabaseClient) (event : jsstring) (payload : option Session).

Definition step (st : Step) : M unit :=
  match st with
  | Render supabase => commit_effect supabase
  | Unmount => unmount
  | AuthEvent client event payload => emit client event payload
  end.

Definition run (steps : list Step) (w : World) : World :=
  foldl (fun w st => state_of (step st w)) w steps.

(** ** The provider list of [AuthPanel] *)

Definition providers : list jsstring :=
  js <$> ["apple"; "azure"; "bitbucket"; "discord"; "facebook"; "github";
          "gitlab"; "google"; "keycloak"; "linkedin"; "notion"; "slack";
          "spotify"; "twitch"; "twitter"; "workos"].

(** [l.includes(p)] *)
Definition includes (l : list jsstring) (p : jsstring) : bool :=
  bool_decide (p ∈ l).

(** [l.indexOf(p)]: the index of the first [p], [-1] when there is
    none. *)
Fixpoint indexOf (l : list jsstring) (p : jsstring) : Z :=
  match l with
  | [] => (-1)%Z
  | x :: l' =>
      if bool_decide (x = p) then 0%Z
      else let i := indexOf l' p in
           if (i <? 0)%Z then (-1)%Z else (i + 1)%Z
  end.

(** The array after [l.splice(start, deleteCount)]: a negative [start]
    counts from the end, and both arguments are clamped to the array. *)
Definition splice {A} (l : list A) (start deleteCount : Z) : list A :=
  let len := Z.of_nat (length l) in
  let start := if (start <? 0)%Z then Z.max (len + start) 0 else Z.min start len in
  let count := Z.min (Z.max deleteCount 0) (len - start) in
  take (Z.to_nat start) l ++ drop (Z.to_nat (start + count)) l.

(** The [onChange] of the checkbox of provider [p], in a render in which
    the enabled providers are [enabledProviders]: the next value of that
    state. *)
Definition AuthPanel_onChange (enabledProviders : list jsstring) (p : jsstring)
  : list jsstring :=
  let selected := includes enabledProviders p in
  if selected then
    let newValue := enabledProviders in
    let index := indexOf newValue p in
    splice newValue index 1
  else
    enabledProviders ++ [p].

(** The enabled providers after the checkboxes of [clicks] are clicked
    in order, from the initial state of [AuthPanel]. *)
Definition AuthPanel_clicks (clicks : list jsstring) : list jsstring :=
  foldl AuthPanel_onChange [] clicks.

(** The [socialLayout] given to the login widget. *)
Definition socialLayout (enabledProviders : list jsstring) : jsstring :=
  if (5 <? length enabledProviders)%nat then js "vertical" else js "horizontal".

(** ** What [Home] renders *)



Section HomeRender.
Context `{Platform}.

End HomeRender.

(** ** The vocabulary of the statements *)

(** The [role] field of parsed data: the own property of an object,
    absent on anything else. *)
Definition role_field (data : value) : option value :=
  match data with
  | JObject members => own_property (js "role") members
  | _ => None
  end.

(** The token of the scenario in the specification: its payload is the
    object with the one member [role], of value [service_role]. *)
Definition service_role_token : jsstring :=
  js "eyJhbGciOiJIUzI1NiJ9.eyJyb2xlIjoic2VydmljZV9yb2xlIn0.sig".

(** The same with the role [anon]. *)
Definition anon_token : jsstring :=
  js "eyJhbGciOiJIUzI1NiJ9.eyJyb2xlIjoiYW5vbiJ9.sig".

(** A cell holds a string that the key guard classifies as privileged. *)
Definition privileged `{Platform} (cell : option jsstring) : Prop :=
  ∃ text, cell = Some text ∧ checkForServiceRole text = Normal true.

(** The key cell and the stored key hold no privileged string. *)
Definition key_guarded `{Platform} (w : World) : Prop :=
  ¬ privileged (key w) ∧ ¬ privileged (localStorage w !! KEY_STORAGE_KEY).

(** A session, for the runs below. *)
Definition a_session : Session :=
  {| access_token := js "a.b.c"; user_email := Some (js "user@example.com") |}.

(** The logs of a page whose subscriptions follow one another: the log,
    the subscription that is live after it, and the number of
    subscriptions made. A subscription is made when none is live, only
    the live one is cancelled, and only the live one is called. *)
Inductive lifecycle : list Call → option Subscription → nat → Prop :=
| lifecycle_start :
    lifecycle [] None 0
| lifecycle_subscribe log n client :
    lifecycle log None n →
    lifecycle (log ++ [Subscribe {| sub_id := n; sub_client := client |}])
              (Some {| sub_id := n; sub_client := client |}) (S n)
| lifecycle_unsubscribe log live n :
    lifecycle log (Some live) n →
    lifecycle (log ++ [Unsubscribe live]) None n
| lifecycle_callback log live n event payload :
    lifecycle log (Some live) n →
    lifecycle (log ++ [Callback live event payload]) (Some live) n.

(** The state of a page agrees with its log. *)
Definition subscribed (w : World) (live : option Subscription) : Prop :=
  lifecycle (calls w) live (next_subscription w)
  ∧ emitters w = option_list live
  ∧ effect_cleanup w = unsubscribe_cleanup <$> live
  ∧ sub_client <$> live = default None (effect_deps w).

(** The scenario of the specification: the page subscribes on a first
    client and gets a refreshed token; the credentials change, and the
    first client, then the second, emit an event. *)
Definition credential_change : list Step :=
  [Render (Some (client_ref 0));
   AuthEvent (client_ref 0) TOKEN_REFRESHED (Some a_session);
   Render (Some (client_ref 1));
   AuthEvent (client_ref 0) SIGNED_OUT None;
   AuthEvent (client_ref 1) SIGNED_IN (Some a_session)].

(** The text [a.b.c] of segments [a], [b], [c]. *)
Definition dotted (segments : list jsstring) : jsstring :=
  match segments with
  | [] => []
  | first :: others => first ++ concat ((fun seg => dot :: seg) <$> others)
  end.

(** An auth event that the callback acts on. *)
Definition effective (ev : jsstring * option Session) : bool :=
  bool_decide (ev.1 = SIGNED_OUT)
  || (truthy_object ev.2
      && (bool_decide (ev.1 = SIGNED_IN) || bool_decide (ev.1 = TOKEN_REFRESHED))).

(** The session an effective event leaves. *)
Definition session_after (ev : jsstring * option Session) : option Session :=
  if bool_decide (ev.1 = SIGNED_OUT) then None else ev.2.

(** A call an input handler may make: the warning, a write of the URL,
    or a write under the key name of a text the guard has cleared. *)
Definition handler_call `{Platform} (c : Call) : Prop :=
  match c with
  | Alert text => text = service_role_warning
  | SetItem name text =>
      name = URL_STORAGE_KEY
      ∨ (name = KEY_STORAGE_KEY ∧ checkForServiceRole text = Normal false)
  | _ => False
  end.

Definition is_subscribe (c : Call) : bool :=
  match c with
  | Subscribe _ => true
  | _ => false
  end.

Definition is_unsubscribe (c : Call) : bool :=
  match c with
  | Unsubscribe _ => true
  | _ => false
  end.

(** A platform whose client constructor wants an [http] URL, and is the
    browser otherwise. *)
Definition strict_platform : Platform := {|
  atob := Browser.atob;
  JSON_parse := Browser.JSON_parse;
  createClient_throws := fun supabaseUrl supabaseKey =>
    if bool_decide (take 4 supabaseUrl = js "http") then None
    else Some (Error (js "Invalid URL"))
|}.

(** The URL cell is what the storage holds under its name, and the key
    cell is what it holds under the other name or is empty. *)
Definition mirrored (w : World) : Prop :=
  url w = localStorage w !! URL_STORAGE_KEY
  ∧ (key w = localStorage w !! KEY_STORAGE_KEY ∨ key w = Some []).

(** * Properties *)

(** Runs the primitive steps of a straight-line piece of [M]. *)
Ltac run_M :=
  cbv [state_of mbind M_bind mret M_ret record_call onAuthStateChange
       unsubscribe subscription_effect run_cleanup remember_effect];
  cbn.

(** ** Key Guard *)

Section KeyGuardProperties.
Context `{Platform}.

Lemma checkForServiceRole_three (jwt header payload signature : jsstring) :
  split dot jwt = [header; payload; signature] →
  checkForServiceRole jwt =
    try_catch
      (json ← atob payload;
       data ← JSON_parse json;
       role ← get_role data;
       Normal (strict_equals_string role (js "service_role")))
      (fun _ => Normal false).
Proof.
  intros Hsplit. unfold checkForServiceRole. rewrite Hsplit. reflexivity.
Qed.

Lemma checkForServiceRole_not_three (jwt : jsstring) :
  length (split dot jwt) ≠ 3%nat →
  checkForServiceRole jwt = Normal false.
Proof.
  intros Hlen. unfold checkForServiceRole.
  destruct (Nat.eqb_spec (length (split dot jwt)) 3) as [Heq | Hne]; [done |].
  reflexivity.
Qed.

Lemma strict_equals_string_true (v : option value) (literal : jsstring) :
  strict_equals_string v literal = true ↔ v = Some (JString literal).
Proof.
  unfold strict_equals_string.
  destruct v as [[| b | n | s | items | members] |]; try (split; [done | congruence]).
  rewrite bool_decide_eq_true. split; [intros -> | intros [= ->]]; reflexivity.
Qed.

Lemma get_role_decoded (data : value) :
  try_catch
    (role ← get_role data;
     Normal (strict_equals_string role (js "service_role")))
    (fun _ => Normal false)
  = Normal (strict_equals_string (role_field data) (js "service_role")).
Proof. destruct data; reflexivity. Qed.

End KeyGuardProperties.

(** C1. On a token of exactly three segments whose middle segment [atob]
    decodes and [JSON.parse] parses, [checkForServiceRole] returns [true]
    when the [role] field of the parsed data is the string
    [service_role], and [false] for any other value of the field and
    when the data has no such field. *)
Theorem checkForServiceRole_decides_role `{Platform}
    (jwt header payload signature json : jsstring) (data : value) :
  split dot jwt = [header; payload; signature] →
  atob payload = Normal json →
  JSON_parse json = Normal data →
  (role_field data = Some (JString (js "service_role")) →
   checkForServiceRole jwt = Normal true)
  ∧ (role_field data ≠ Some (JString (js "service_role")) →
     checkForServiceRole jwt = Normal false).
Proof.
  intros Hsplit Hatob Hparse.
  rewrite (checkForServiceRole_three _ _ _ _ Hsplit), Hatob.
  change (Normal json ≫= _) with
    (data ← JSON_parse json; role ← get_role data;
     Normal (strict_equals_string role (js "service_role"))).
  rewrite Hparse.
  change (try_catch (Normal data ≫= _) _) with
    (try_catch (role ← get_role data;
                Normal (strict_equals_string role (js "service_role")))
               (fun _ => Normal false)).
  rewrite get_role_decoded.
  split; intros Hrole.
  - f_equal. by apply strict_equals_string_true.
  - f_equal. apply not_true_is_false. by rewrite strict_equals_string_true.
Qed.

Lemma checkForServiceRole_decides_role_witness :
  checkForServiceRole service_role_token = Normal true
  ∧ checkForServiceRole anon_token = Normal false.
Proof.
  split.
  - apply (checkForServiceRole_decides_role service_role_token
             (js "eyJhbGciOiJIUzI1NiJ9") (js "eyJyb2xlIjoic2VydmljZV9yb2xlIn0")
             (js "sig")
             [123; 34; 114; 111; 108; 101; 34; 58; 34; 115; 101; 114; 118; 105;
              99; 101; 95; 114; 111; 108; 101; 34; 125]
             (JObject [(js "role", JString (js "service_role"))]));
      vm_compute; reflexivity.
  - apply (checkForServiceRole_decides_role anon_token
             (js "eyJhbGciOiJIUzI1NiJ9") (js "eyJyb2xlIjoiYW5vbiJ9") (js "sig")
             [123; 34; 114; 111; 108; 101; 34; 58; 34; 97; 110; 111; 110; 34; 125]
             (JObject [(js "role", JString (js "anon"))]));
      vm_compute; congruence.
Defined.

(** C7. [checkForServiceRole] returns [false] on every string that does
    not split on the dot into exactly three segments, and on every
    string of three segments whose middle segment [atob] rejects or
    whose decoded text [JSON.parse] rejects. *)
Theorem checkForServiceRole_malformed `{Platform} (jwt : jsstring) :
  (length (split dot jwt) ≠ 3%nat → checkForServiceRole jwt = Normal false)
  ∧ (∀ header payload signature : jsstring,
       split dot jwt = [header; payload; signature] →
       (∃ e, atob payload = Throw e)
       ∨ (∃ json e, atob payload = Normal json ∧ JSON_parse json = Throw e) →
       checkForServiceRole jwt = Normal false).
Proof.
  split.
  - apply checkForServiceRole_not_three.
  - intros header payload signature Hsplit Hfail.
    rewrite (checkForServiceRole_three _ _ _ _ Hsplit).
    destruct Hfail as [[e Hatob] | (json & e & Hatob & Hparse)].
    + rewrite Hatob. reflexivity.
    + rewrite Hatob.
      change (Normal json ≫= _) with
        (data ← JSON_parse json; role ← get_role data;
         Normal (strict_equals_string role (js "service_role"))).
      rewrite Hparse. reflexivity.
Qed.

Lemma checkForServiceRole_malformed_witness :
  checkForServiceRole (js "not a token") = Normal false
  ∧ checkForServiceRole (js "a.b.c.d") = Normal false
  ∧ checkForServiceRole (js "a.b-_.c") = Normal false
  ∧ checkForServiceRole (js "a.e30x.c") = Normal false.
Proof.
  split; [| split; [| split]].
  - apply (proj1 (checkForServiceRole_malformed (js "not a token"))).
    vm_compute. lia.
  - apply (proj1 (checkForServiceRole_malformed (js "a.b.c.d"))).
    vm_compute. lia.
  - apply (proj2 (checkForServiceRole_malformed (js "a.b-_.c"))
             (js "a") (js "b-_") (js "c")); [reflexivity |].
    left. exists Browser.InvalidCharacterError. reflexivity.
  - apply (proj2 (checkForServiceRole_malformed (js "a.e30x.c"))
             (js "a") (js "e30x") (js "c")); [reflexivity |].
    right. exists [123; 125; 49], Browser.SyntaxError. split; reflexivity.
Defined.

(** C9. [checkForServiceRole] is total: on every string it returns a
    boolean and throws nothing. The segments are counted before anything
    is decoded, and whatever [atob], [JSON.parse] or the read of [role]
    throws is caught and answered with [false]. *)
Theorem checkForServiceRole_total `{Platform} (jwt : jsstring) :
  ∃ b : bool, checkForServiceRole jwt = Normal b.
Proof.
  unfold checkForServiceRole.
  destruct (negb (length (split dot jwt) =? 3)%nat); [by exists false |].
  destruct (atob (to_string_arg (split dot jwt !! 1%nat))) as [json | e];
    [| by exists false].
  change (Normal json ≫= _) with
    (data ← JSON_parse json; role ← get_role data;
     Normal (strict_equals_string role (js "service_role"))).
  destruct (JSON_parse json) as [data | e]; [| by exists false].
  change (try_catch (Normal data ≫= _) _) with
    (try_catch (role ← get_role data;
                Normal (strict_equals_string role (js "service_role")))
               (fun _ => Normal false)).
  rewrite get_role_decoded. eauto.
Qed.

(** ** The input handlers *)

(** [updateKey], by what the guard answers. *)
Lemma updateKey_cases `{Platform} (candidate : jsstring) (w : World) :
  updateKey candidate w =
    match checkForServiceRole candidate with
    | Normal true => (alert service_role_warning;; setKey (Some [])) w
    | Normal false =>
        (setKey (Some candidate);;
         localStorage_setItem KEY_STORAGE_KEY candidate) w
    | Throw e => (Throw e, w)
    end.
Proof.
  unfold updateKey, lift. cbv [mbind M_bind].
  by destruct (checkForServiceRole candidate) as [[] | e].
Qed.

(** C2. When [checkForServiceRole] answers [true] on the candidate,
    [updateKey] shows the warning, sets the key cell to the empty string
    and returns: the one call it makes is the [alert], so
    [localStorage.setItem] is not called, and the storage and the other
    cells are as before. *)
Theorem updateKey_rejects_service_role `{Platform} (candidate : jsstring) (w : World) :
  checkForServiceRole candidate = Normal true →
  let w' := state_of (updateKey candidate w) in
  updateKey candidate w = (Normal (), w')
  ∧ key w' = Some []
  ∧ calls w' = calls w ++ [Alert service_role_warning]
  ∧ localStorage w' = localStorage w
  ∧ url w' = url w ∧ session w' = session w ∧ error w' = error w.
Proof.
  intros Hcheck. rewrite updateKey_cases, Hcheck. done.
Qed.

Lemma updateKey_rejects_service_role_witness :
  let w' := state_of (updateKey service_role_token (Home_init (Some ∅))) in
  key w' = Some []
  ∧ calls w' = [Alert service_role_warning]
  ∧ localStorage w' = ∅.
Proof.
  pose proof (updateKey_rejects_service_role service_role_token
                (Home_init (Some ∅))) as Hreject.
  destruct Hreject as (_ & Hkey & Hcalls & Hstorage & _); [by vm_compute |].
  cbv zeta. rewrite Hkey, Hcalls, Hstorage. done.
Defined.

(** The other scenario of the specification: the key of role [anon]
    is written to the cell and to the storage. *)
Lemma updateKey_persists_anon_key :
  let w' := state_of (updateKey anon_token (Home_init (Some ∅))) in
  key w' = Some anon_token
  ∧ localStorage w' !! KEY_STORAGE_KEY = Some anon_token
  ∧ calls w' = [SetItem KEY_STORAGE_KEY anon_token].
Proof. split; [by vm_compute |]. split; by vm_compute. Qed.

Section HandlerProperties.
Context `{Platform}.

Lemma updateUrl_writes (text : jsstring) (w : World) :
  let w' := state_of (updateUrl text w) in
  url w' = Some text
  ∧ localStorage w' = <[URL_STORAGE_KEY := text]> (localStorage w)
  ∧ calls w' = calls w ++ [SetItem URL_STORAGE_KEY text]
  ∧ key w' = key w.
Proof. done. Qed.

Lemma empty_not_privileged : ¬ privileged (Some []).
Proof. intros (text & [= <-] & Hcheck). discriminate Hcheck. Qed.

Lemma rejected_not_privileged (text : jsstring) :
  checkForServiceRole text = Normal false → ¬ privileged (Some text).
Proof. intros Hfalse (text' & [= <-] & Hcheck). congruence. Qed.

Lemma write_key_guarded (wr : Write) (w : World) :
  key_guarded w → key_guarded (state_of (write wr w)).
Proof.
  intros [Hkey Hstored]. destruct wr as [candidate | text]; cbn [write].
  - rewrite updateKey_cases.
    destruct (checkForServiceRole candidate) as [[] | e] eqn:Hcheck.
    + split; [apply empty_not_privileged | done].
    + split; [by apply rejected_not_privileged |].
      change (localStorage _) with (<[KEY_STORAGE_KEY := candidate]> (localStorage w)).
      rewrite lookup_insert_eq. by apply rejected_not_privileged.
    + done.
  - destruct (updateUrl_writes text w) as (_ & Hs & _ & Hk).
    split; [by rewrite Hk |].
    rewrite Hs, lookup_insert_ne; [done |]. by vm_compute.
Qed.

Lemma run_writes_snoc (writes : list Write) (wr : Write) (w : World) :
  run_writes (writes ++ [wr]) w = state_of (write wr (run_writes writes w)).
Proof. unfold run_writes. by rewrite foldl_snoc. Qed.

Lemma run_writes_key_guarded (writes : list Write) (w : World) :
  key_guarded w → key_guarded (run_writes writes w).
Proof.
  intros Hw. induction writes as [| wr writes IH] using rev_ind; [done |].
  rewrite run_writes_snoc. by apply write_key_guarded.
Qed.

End HandlerProperties.

(** C3, as the code has it. Through every sequence of writes of the two
    inputs, the key cell and the key kept in storage hold no string that
    [checkForServiceRole] classifies as privileged, when they held none
    at the start: [updateKey] asks the guard before it writes. [updateUrl]
    does not ask it: the URL cell and the stored URL take the text as
    typed. *)
Theorem key_guarded_url_unguarded `{Platform} (writes : list Write) (w : World) :
  ¬ privileged (key w) →
  ¬ privileged (localStorage w !! KEY_STORAGE_KEY) →
  let w' := run_writes writes w in
  ¬ privileged (key w')
  ∧ ¬ privileged (localStorage w' !! KEY_STORAGE_KEY)
  ∧ ∀ text, let w'' := run_writes (writes ++ [WriteUrl text]) w in
            url w'' = Some text
            ∧ localStorage w'' !! URL_STORAGE_KEY = Some text.
Proof.
  intros Hkey Hstored w'.
  destruct (run_writes_key_guarded writes w (conj Hkey Hstored)) as [Hk Hs].
  split; [done |]. split; [done |].
  intros text w''. subst w''. rewrite run_writes_snoc.
  destruct (updateUrl_writes text (run_writes writes w)) as (Hu & Hl & _).
  cbn [write]. split; [done |]. by rewrite Hl, lookup_insert_eq.
Qed.

Lemma key_guarded_url_unguarded_witness :
  let w' := run_writes [WriteKey service_role_token; WriteUrl service_role_token;
                        WriteKey anon_token] (Home_init (Some ∅)) in
  ¬ privileged (key w') ∧ ¬ privileged (localStorage w' !! KEY_STORAGE_KEY).
Proof.
  pose proof (key_guarded_url_unguarded
                [WriteKey service_role_token; WriteUrl service_role_token;
                 WriteKey anon_token] (Home_init (Some ∅))) as Hguard.
  destruct Hguard as (Hkey & Hstored & _).
  - intros (text & Hcell & _). vm_compute in Hcell. discriminate Hcell.
  - intros (text & Hcell & _). vm_compute in Hcell. discriminate Hcell.
  - split; [exact Hkey | exact Hstored].
Defined.

(** C3, as stated, fails on the URL cell: typing a service-role key into
    the URL input puts it in the cell and in the storage. *)
Lemma url_cell_takes_service_role_key :
  let w := run_writes [WriteUrl service_role_token] (Home_init (Some ∅)) in
  privileged (url w)
  ∧ url w = Some service_role_token
  ∧ localStorage w !! URL_STORAGE_KEY = Some service_role_token
  ∧ calls w = [SetItem URL_STORAGE_KEY service_role_token].
Proof.
  split; [| split; [| split]].
  - exists service_role_token. split; [reflexivity | by vm_compute].
  - reflexivity.
  - by vm_compute.
  - reflexivity.
Qed.

(** ** Client Factory *)

Section FactoryProperties.
Context `{Platform}.

Lemma supabase_memo_incomplete (w : World) :
  truthy_string (key w) = None ∨ truthy_string (url w) = None →
  supabase_memo w = (setError (Some credentials_required);; mret None) w.
Proof.
  intros Hmissing. unfold supabase_memo.
  destruct Hmissing as [-> | Hurl]; [done |].
  rewrite Hurl. by destruct (truthy_string (key w)).
Qed.

Lemma truthy_string_None (cell : option jsstring) :
  truthy_string cell = None ↔ cell = None ∨ cell = Some [].
Proof.
  destruct cell as [[| c s] |]; cbn; split; try done; try (by eauto);
    intros [? | ?]; done.
Qed.

End FactoryProperties.

(** C5, as the code has it. When the key cell or the URL cell is
    [undefined] or the empty string, the function of [useMemo] gives no
    client, calls no constructor, and sets the error cell to the fixed
    message [A valid Supabase Key and URL are required]. When both are
    filled and the constructor does not throw, it gives the new client
    and clears the error cell. *)
Theorem supabase_memo_error_state `{Platform} (w : World) :
  (key w = None ∨ key w = Some [] ∨ url w = None ∨ url w = Some [] →
   let w' := state_of (supabase_memo w) in
   supabase_memo w = (Normal None, w')
   ∧ error w' = Some (js "A valid Supabase Key and URL are required")
   ∧ next_client w' = next_client w)
  ∧ (∀ k u : jsstring,
       truthy_string (key w) = Some k →
       truthy_string (url w) = Some u →
       createClient_throws u k = None →
       let w' := state_of (supabase_memo w) in
       supabase_memo w = (Normal (Some (client_ref (next_client w))), w')
       ∧ error w' = None).
Proof.
  split.
  - intros Hmissing w'. subst w'.
    rewrite supabase_memo_incomplete; [done |].
    rewrite !truthy_string_None. tauto.
  - intros k u Hk Hu Hok w'. subst w'.
    unfold supabase_memo. rewrite Hk, Hu.
    unfold try_catch_M, createClient. cbv [mbind M_bind].
    rewrite Hok. done.
Qed.

Lemma supabase_memo_error_state_witness :
  (let w := Home_init (Some {[ KEY_STORAGE_KEY := anon_token ]}) in
   supabase_memo w
   = (Normal None, state_of (supabase_memo w))
   ∧ error (state_of (supabase_memo w))
     = Some (js "A valid Supabase Key and URL are required"))
  ∧ (let w := Home_init (Some {[ KEY_STORAGE_KEY := anon_token;
                                URL_STORAGE_KEY := js "https://project.supabase.co" ]}) in
     error (state_of (supabase_memo w)) = None).
Proof.
  split.
  - pose proof (proj1 (supabase_memo_error_state
                         (Home_init (Some {[ KEY_STORAGE_KEY := anon_token ]}))))
      as Hmissing.
    destruct Hmissing as (Hrun & Herror & _).
    + right. right. left. by vm_compute.
    + split; [exact Hrun | exact Herror].
  - pose proof (proj2 (supabase_memo_error_state
                         (Home_init (Some {[ KEY_STORAGE_KEY := anon_token;
                                             URL_STORAGE_KEY := js "https://project.supabase.co" ]})))
                  anon_token (js "https://project.supabase.co")) as Hbuilt.
    destruct Hbuilt as (_ & Herror); [by vm_compute | by vm_compute | reflexivity |].
    exact Herror.
Defined.

(** C5, as stated, fails on the text of the message: with an empty URL
    and a key, the error cell does not hold
    [a valid endpoint and public key are required]. *)
Lemma supabase_memo_message_differs :
  let w := Home_init (Some {[ KEY_STORAGE_KEY := anon_token ]}) in
  url w = None
  ∧ key w = Some anon_token
  ∧ supabase_memo w = (Normal None, state_of (supabase_memo w))
  ∧ error (state_of (supabase_memo w))
    ≠ Some (js "a valid endpoint and public key are required").
Proof.
  split; [by vm_compute |]. split; [by vm_compute |].
  split; [by vm_compute |]. by vm_compute.
Qed.

(** ** Session Reconciler *)

Lemma auth_callback_session (event : jsstring) (payload : option Session) (w : World) :
  auth_callback event payload w
  = (Normal (),
     state_of
       ((if bool_decide (event = SIGNED_OUT) then setSession None else mret ())
          (state_of
             ((if truthy_object payload
                  && (bool_decide (event = SIGNED_IN)
                      || bool_decide (event = TOKEN_REFRESHED))
               then setSession payload else mret ()) w)))).
Proof.
  unfold auth_callback. cbv [mbind M_bind].
  destruct (truthy_object payload && _), (bool_decide (event = SIGNED_OUT));
    reflexivity.
Qed.

Lemma auth_callback_signed_out (payload : option Session) (w : World) :
  session (state_of (auth_callback SIGNED_OUT payload w)) = None.
Proof.
  rewrite auth_callback_session.
  by destruct (truthy_object payload && _).
Qed.

Lemma auth_callback_null (event : jsstring) (w : World) :
  event ≠ SIGNED_OUT → auth_callback event None w = (Normal (), w).
Proof.
  intros Hout. rewrite auth_callback_session.
  by rewrite (bool_decide_eq_false_2 _ Hout).
Qed.

Lemma reconcile_snoc (events : list (jsstring * option Session))
    (event : jsstring) (payload : option Session) (w : World) :
  reconcile (events ++ [(event, payload)]) w
  = state_of (auth_callback event payload (reconcile events w)).
Proof. unfold reconcile. by rewrite foldl_snoc. Qed.

(** C4. The session cell starts at [null]. The callback sets it to the
    session of a [SIGNED_IN] or [TOKEN_REFRESHED] event that carries one,
    whatever it held; sets it to [null] on [SIGNED_OUT]; and leaves the
    whole state as it is on any other kind of event. After any run of
    events that ends with [SIGNED_OUT] the cell is [null]. *)
Theorem reconciler_transitions (w : World) :
  (∀ window, session (Home_init window) = None)
  ∧ (∀ (event : jsstring) (s : Session),
       event = SIGNED_IN ∨ event = TOKEN_REFRESHED →
       session (state_of (auth_callback event (Some s) w)) = Some s)
  ∧ (∀ payload, session (state_of (auth_callback SIGNED_OUT payload w)) = None)
  ∧ (∀ (event : jsstring) payload,
       event ≠ SIGNED_IN → event ≠ TOKEN_REFRESHED → event ≠ SIGNED_OUT →
       auth_callback event payload w = (Normal (), w))
  ∧ (∀ events payload,
       session (reconcile (events ++ [(SIGNED_OUT, payload)]) w) = None).
Proof.
  split; [done |]. split; [| split; [| split]].
  - intros event s Hevent. rewrite auth_callback_session.
    destruct Hevent as [-> | ->]; reflexivity.
  - intros payload. apply auth_callback_signed_out.
  - intros event payload Hin Hrefreshed Hout. rewrite auth_callback_session.
    rewrite (bool_decide_eq_false_2 _ Hin), (bool_decide_eq_false_2 _ Hrefreshed),
      (bool_decide_eq_false_2 _ Hout).
    by rewrite andb_false_r.
  - intros events payload. rewrite reconcile_snoc.
    apply auth_callback_signed_out.
Qed.

Lemma reconciler_transitions_witness :
  session (state_of (auth_callback TOKEN_REFRESHED (Some a_session) (Home_init None)))
  = Some a_session
  ∧ auth_callback (js "USER_UPDATED") (Some a_session) (Home_init None)
    = (Normal (), Home_init None).
Proof.
  destruct (reconciler_transitions (Home_init None))
    as (_ & Hin & _ & Hother & _).
  split.
  - apply Hin. right. reflexivity.
  - apply Hother; by vm_compute.
Defined.

(** C10. A [SIGNED_IN] or [TOKEN_REFRESHED] event whose session is
    [null] changes nothing: a session that is held stays, and none is
    entered. *)
Theorem null_session_event_ignored (event : jsstring) (w : World) :
  event = SIGNED_IN ∨ event = TOKEN_REFRESHED →
  auth_callback event None w = (Normal (), w).
Proof.
  intros [-> | ->]; by apply auth_callback_null.
Qed.

Lemma null_session_event_ignored_witness :
  let w := reconcile [(SIGNED_IN, Some a_session)] (Home_init None) in
  session w = Some a_session
  ∧ auth_callback TOKEN_REFRESHED None w = (Normal (), w).
Proof.
  split; [reflexivity |].
  apply null_session_event_ignored. right. reflexivity.
Defined.

(** ** Token Decoder *)

Section DecoderProperties.
Context `{Platform}.

Lemma decodeClaims_payload (token : jsstring) :
  decodeClaims token
  = (json ← atob (to_string_arg (split dot token !! 1%nat)); JSON_parse json).
Proof. reflexivity. Qed.

(** The panel has no handler of its own: what the decode throws leaves
    the render of [SessionPanel]. *)
Lemma SessionPanel_throws (s : Session) (e : exn) :
  decodeClaims (access_token s) = Throw e → SessionPanel s = Throw e.
Proof. intros Hthrow. unfold SessionPanel. by rewrite Hthrow. Qed.

Lemma SessionPanel_shows (s : Session) (data : value) :
  decodeClaims (access_token s) = Normal data →
  jwt_data <$> SessionPanel s = Normal data.
Proof. intros Hdata. unfold SessionPanel. by rewrite Hdata. Qed.

End DecoderProperties.

(** C6, as the code has it. The decode of [SessionPanel] reads the
    second segment of the token, the text [undefined] when the token has
    a single segment, and does not count the segments. It fails exactly
    when [atob] rejects that text or [JSON.parse] rejects what [atob]
    gave, and gives the parsed data in every other case; so it fails on
    a token of one segment as soon as [atob] rejects the text
    [undefined]. *)
Theorem decodeClaims_fails_iff `{Platform} (token : jsstring) :
  let payload := to_string_arg (split dot token !! 1%nat) in
  ((∃ e, decodeClaims token = Throw e)
   ↔ (∃ e, atob payload = Throw e)
     ∨ (∃ json e, atob payload = Normal json ∧ JSON_parse json = Throw e))
  ∧ (∀ json data,
       atob payload = Normal json → JSON_parse json = Normal data →
       decodeClaims token = Normal data)
  ∧ (length (split dot token) = 1%nat →
     (∃ e, atob (js "undefined") = Throw e) →
     ∃ e, decodeClaims token = Throw e).
Proof.
  intros payload. rewrite decodeClaims_payload. fold payload.
  split; [| split].
  - split.
    + intros [e Hthrow].
      destruct (atob payload) as [json | e'] eqn:Hatob; [| eauto].
      right. exists json, e. done.
    + intros [[e Hatob] | (json & e & Hatob & Hparse)]; rewrite Hatob; eauto.
  - intros json data Hatob Hparse. rewrite Hatob. exact Hparse.
  - intros Hone [e Hundefined]. exists e.
    assert (payload = js "undefined") as ->; [| by rewrite Hundefined].
    subst payload. destruct (split dot token) as [| seg [| seg' segs]]; done.
Qed.

Lemma decodeClaims_fails_iff_witness :
  (∃ e, decodeClaims (js "a.b-_.c") = Throw e)
  ∧ decodeClaims (js "a.bnVsbA.c") = Normal JNull
  ∧ (∃ e, decodeClaims (js "no dot in this token") = Throw e).
Proof.
  split; [| split].
  - apply (proj1 (decodeClaims_fails_iff (js "a.b-_.c"))).
    left. exists Browser.InvalidCharacterError. reflexivity.
  - apply (proj1 (proj2 (decodeClaims_fails_iff (js "a.bnVsbA.c"))) (js "null"));
      reflexivity.
  - apply (proj2 (proj2 (decodeClaims_fails_iff (js "no dot in this token")))).
    + reflexivity.
    + exists Browser.InvalidCharacterError. reflexivity.
Defined.

(** C6, as stated, fails twice. On the shape: a token of two segments,
    and one of four, whose second segment decodes is decoded, and the
    panel shows its claims. On the caller: nothing in [SessionPanel]
    catches what the decode throws, on a token without a dot as on a
    token whose payload is base64url text that is not base64 text (here
    the object with the member [a] of value [???]), so its render
    throws. *)
Lemma decodeClaims_counterexample :
  (length (split dot (js "x.eyJyb2xlIjoiYW5vbiJ9")) = 2%nat
   ∧ decodeClaims (js "x.eyJyb2xlIjoiYW5vbiJ9")
     = Normal (JObject [(js "role", JString (js "anon"))]))
  ∧ (length (split dot (js "a.bnVsbA.c.d")) = 4%nat
     ∧ jwt_data <$> SessionPanel {| access_token := js "a.bnVsbA.c.d";
                                    user_email := None |}
       = Normal JNull)
  ∧ SessionPanel {| access_token := js "not-a-token"; user_email := None |}
    = Throw Browser.InvalidCharacterError
  ∧ SessionPanel {| access_token := js "eyJhbGciOiJIUzI1NiJ9.eyJhIjoiPz8_In0.sig";
                    user_email := Some (js "user@example.com") |}
    = Throw Browser.InvalidCharacterError.
Proof.
  split; [split; by vm_compute |]. split; [split; by vm_compute |].
  split; by vm_compute.
Qed.

(** ** The subscription effect *)

Lemma snoc_split {A} (l pre post : list A) (x y : A) :
  l ++ [x] = pre ++ y :: post →
  (post = [] ∧ l = pre ∧ x = y)
  ∨ (∃ post', post = post' ++ [x] ∧ l = pre ++ y :: post').
Proof.
  destruct post as [| z post _] using rev_ind; intros Heq.
  - left. apply app_inj_tail in Heq as [-> ->]. done.
  - right. exists post.
    rewrite app_comm_cons, app_assoc in Heq.
    apply app_inj_tail in Heq as [-> ->]. done.
Qed.

Section LifecycleProperties.
Implicit Types (log pre mid post : list Call) (live : option Subscription).
Implicit Types (s : Subscription) (n : nat).

Lemma lifecycle_bound log live n :
  lifecycle log live n →
  (∀ s, live = Some s → (sub_id s < n)%nat)
  ∧ (∀ s, Unsubscribe s ∈ log → (sub_id s < n)%nat).
Proof.
  induction 1 as [| log n client _ [IHlive IHlog] | log s0 n _ [IHlive IHlog]
                  | log s0 n event payload _ [IHlive IHlog]].
  - split; [done |]. intros s Hin. by apply elem_of_nil in Hin.
  - split.
    + intros s [= <-]. cbn. lia.
    + intros s [Hin | Hin]%elem_of_app.
      * specialize (IHlog s Hin). lia.
      * apply list_elem_of_singleton in Hin. discriminate Hin.
  - split; [done |].
    intros s [Hin | Hin]%elem_of_app; [by apply IHlog |].
    apply list_elem_of_singleton in Hin as [= ->]. by apply IHlive.
  - split; [done |].
    intros s [Hin | Hin]%elem_of_app; [by apply IHlog |].
    apply list_elem_of_singleton in Hin. discriminate Hin.
Qed.

(** The live subscription was never cancelled. *)
Lemma lifecycle_live_not_cancelled log live n s :
  lifecycle log live n → live = Some s → Unsubscribe s ∉ log.
Proof.
  intros Hlog. revert s.
  induction Hlog as [| log n client Hlog _ | log s0 n _ _
                     | log s0 n event payload _ IH]; intros s Hlive.
  - apply not_elem_of_nil.
  - injection Hlive as <-.
    intros [Hin | Hin]%elem_of_app.
    + apply (lifecycle_bound _ _ _ Hlog) in Hin. cbn in Hin. lia.
    + apply list_elem_of_singleton in Hin. discriminate Hin.
  - discriminate Hlive.
  - intros [Hin | Hin]%elem_of_app; [by apply (IH s) |].
    apply list_elem_of_singleton in Hin. discriminate Hin.
Qed.

(** A subscription made is live or was cancelled afterwards. *)
Lemma lifecycle_subscribed_then log live n pre post s :
  lifecycle log live n →
  log = pre ++ Subscribe s :: post →
  live = Some s ∨ Unsubscribe s ∈ post.
Proof.
  intros Hlog. revert pre post.
  induction Hlog as [| log n client _ IH | log s0 n _ IH
                     | log s0 n event payload _ IH]; intros pre post Hsplit.
  - by destruct pre.
  - apply snoc_split in Hsplit as [(-> & -> & [= ->]) | (post' & -> & ->)];
      [by left |].
    destruct (IH pre post' eq_refl) as [? | Hin]; [done |].
    right. apply elem_of_app. by left.
  - apply snoc_split in Hsplit as [(-> & -> & ?) | (post' & -> & ->)]; [done |].
    right. apply elem_of_app.
    destruct (IH pre post' eq_refl) as [[= ->] | Hin]; [right | by left].
    by apply list_elem_of_singleton.
  - apply snoc_split in Hsplit as [(-> & -> & ?) | (post' & -> & ->)]; [done |].
    destruct (IH pre post' eq_refl) as [? | Hin]; [by left |].
    right. apply elem_of_app. by left.
Qed.

(** Between two subscriptions, the first is cancelled. *)
Lemma lifecycle_cancel_between log live n pre mid post s s' :
  lifecycle log live n →
  log = pre ++ Subscribe s :: mid ++ Subscribe s' :: post →
  Unsubscribe s ∈ mid.
Proof.
  intros Hlog. revert pre mid post.
  induction Hlog as [| log n client Hlog IH | log s0 n _ IH
                     | log s0 n event payload _ IH]; intros pre mid post Hsplit.
  - by destruct pre.
  - apply snoc_split in Hsplit as [(Hnil & _) | (post' & Hpost & ->)];
      [by destruct mid |].
    symmetry in Hpost.
    apply snoc_split in Hpost as [(-> & -> & _) | (post'' & -> & ->)].
    + by destruct (lifecycle_subscribed_then _ _ _ pre mid s Hlog eq_refl).
    + by apply (IH pre mid post'').
  - apply snoc_split in Hsplit as [(Hnil & _) | (post' & Hpost & ->)];
      [by destruct mid |].
    symmetry in Hpost.
    apply snoc_split in Hpost as [(_ & _ & ?) | (post'' & -> & ->)]; [done |].
    by apply (IH pre mid post'').
  - apply snoc_split in Hsplit as [(Hnil & _) | (post' & Hpost & ->)];
      [by destruct mid |].
    symmetry in Hpost.
    apply snoc_split in Hpost as [(_ & _ & ?) | (post'' & -> & ->)]; [done |].
    by apply (IH pre mid post'').
Qed.

(** After a subscription is cancelled, its callback is not called. *)
Lemma lifecycle_no_call_after_cancel log live n pre post s event payload :
  lifecycle log live n →
  log = pre ++ Unsubscribe s :: post →
  Callback s event payload ∉ post.
Proof.
  intros Hlog. revert pre post.
  induction Hlog as [| log n client _ IH | log s0 n _ IH
                     | log s0 n event' payload' Hlog IH]; intros pre post Hsplit.
  - by destruct pre.
  - apply snoc_split in Hsplit as [(-> & _) | (post' & -> & ->)];
      [apply not_elem_of_nil |].
    intros [Hin | Hin]%elem_of_app; [by apply (IH pre post') |].
    apply list_elem_of_singleton in Hin. discriminate Hin.
  - apply snoc_split in Hsplit as [(-> & _) | (post' & -> & ->)];
      [apply not_elem_of_nil |].
    intros [Hin | Hin]%elem_of_app; [by apply (IH pre post') |].
    apply list_elem_of_singleton in Hin. discriminate Hin.
  - apply snoc_split in Hsplit as [(-> & _) | (post' & -> & ->)];
      [apply not_elem_of_nil |].
    intros [Hin | Hin]%elem_of_app; [by apply (IH pre post') |].
    apply list_elem_of_singleton in Hin as [= -> _ _].
    apply (lifecycle_live_not_cancelled _ _ _ s0 Hlog eq_refl).
    apply elem_of_app. right. apply list_elem_of_here.
Qed.

End LifecycleProperties.

Lemma Home_init_subscribed window : subscribed (Home_init window) None.
Proof. repeat split. apply lifecycle_start. Qed.

Lemma run_cleanup_subscribed (w : World) (live : option Subscription) :
  subscribed w live →
  let w' := state_of (run_cleanup (effect_cleanup w) w) in
  run_cleanup (effect_cleanup w) w = (Normal (), w')
  ∧ lifecycle (calls w') None (next_subscription w')
  ∧ emitters w' = [].
Proof.
  intros (Hlog & Hemitters & Hcleanup & _). rewrite Hcleanup.
  destruct live as [s |]; cbn.
  - split; [done |]. split; [by apply lifecycle_unsubscribe |].
    rewrite Hemitters. cbn. by destruct (decide (s ≠ s)).
  - by rewrite Hemitters.
Qed.

Lemma subscription_effect_subscribed (supabase : option SupabaseClient) (w : World) :
  lifecycle (calls w) None (next_subscription w) →
  emitters w = [] →
  ∃ live,
    subscribed
      (state_of ((cleanup ← subscription_effect supabase;
                  remember_effect (Some supabase) cleanup) w)) live
    ∧ sub_client <$> live = supabase.
Proof.
  intros Hlog Hemitters. destruct supabase as [client |].
  - exists (Some {| sub_id := next_subscription w; sub_client := client |}).
    split; [| done]. repeat split; run_M.
    + by apply lifecycle_subscribe.
    + by rewrite Hemitters.
  - exists None. by repeat split.
Qed.

Lemma commit_effect_subscribed (supabase : option SupabaseClient) (w : World)
    (live : option Subscription) :
  subscribed w live →
  ∃ live', subscribed (state_of (commit_effect supabase w)) live'
           ∧ sub_client <$> live' = supabase.
Proof.
  intros Hw. unfold commit_effect. case_bool_decide as Hdeps.
  - exists live. split; [done |].
    destruct Hw as (_ & _ & _ & ->). by rewrite Hdeps.
  - destruct (run_cleanup_subscribed w live Hw) as (Hrun & Hlog & Hemitters).
    change ((run_cleanup (effect_cleanup w);; ?k) w) with
      (match run_cleanup (effect_cleanup w) w with
       | (Normal a, w') => k w'
       | (Throw e, w') => (Throw e, w')
       end).
    rewrite Hrun. by apply subscription_effect_subscribed.
Qed.

Lemma unmount_subscribed (w : World) (live : option Subscription) :
  subscribed w live → subscribed (state_of (unmount w)) None.
Proof.
  intros Hw. unfold unmount.
  destruct (run_cleanup_subscribed w live Hw) as (Hrun & Hlog & Hemitters).
  change ((run_cleanup (effect_cleanup w);; ?k) w) with
    (match run_cleanup (effect_cleanup w) w with
     | (Normal a, w') => k w'
     | (Throw e, w') => (Throw e, w')
     end).
  rewrite Hrun. by repeat split.
Qed.

(** The callback writes the session cell and nothing else. *)
Lemma auth_callback_frame (event : jsstring) (payload : option Session) (w : World) :
  let w' := state_of (auth_callback event payload w) in
  calls w' = calls w ∧ emitters w' = emitters w
  ∧ next_subscription w' = next_subscription w
  ∧ effect_cleanup w' = effect_cleanup w ∧ effect_deps w' = effect_deps w.
Proof.
  rewrite auth_callback_session.
  by destruct (truthy_object payload && _), (bool_decide (event = SIGNED_OUT)).
Qed.

Lemma callback_called (s : Subscription) (event : jsstring)
    (payload : option Session) (w : World) :
  let w' := state_of ((record_call (Callback s event payload);;
                       auth_callback event payload;;
                       mret ()) w) in
  calls w' = calls w ++ [Callback s event payload]
  ∧ emitters w' = emitters w
  ∧ next_subscription w' = next_subscription w
  ∧ effect_cleanup w' = effect_cleanup w ∧ effect_deps w' = effect_deps w.
Proof.
  cbv [mbind M_bind record_call]. rewrite auth_callback_session.
  by destruct (truthy_object payload && _), (bool_decide (event = SIGNED_OUT)).
Qed.

Lemma emit_subscribed (client : SupabaseClient) (event : jsstring)
    (payload : option Session) (w : World) (live : option Subscription) :
  subscribed w live → subscribed (state_of (emit client event payload w)) live.
Proof.
  intros (Hlog & Hemitters & Hcleanup & Hdeps). unfold emit. rewrite Hemitters.
  destruct live as [s |]; [| by repeat split].
  change (option_list (Some s)) with [s].
  destruct (decide (sub_client s = client)) as [Hc | Hc].
  - rewrite filter_cons_True, filter_nil by done. cbn [foldr].
    destruct (callback_called s event payload w)
      as (Hcalls & Hem & Hnext & Hcl & Hd).
    repeat split.
    + rewrite Hcalls, Hnext. by apply lifecycle_callback.
    + by rewrite Hem.
    + by rewrite Hcl.
    + by rewrite Hd.
  - rewrite filter_cons_False, filter_nil by done. by repeat split.
Qed.

Lemma run_snoc (steps : list Step) (st : Step) (w : World) :
  run (steps ++ [st]) w = state_of (step st (run steps w)).
Proof. unfold run. by rewrite foldl_snoc. Qed.

Lemma run_subscribed (steps : list Step) window :
  ∃ live, subscribed (run steps (Home_init window)) live.
Proof.
  induction steps as [| st steps [live IH]] using rev_ind.
  - exists None. apply Home_init_subscribed.
  - rewrite run_snoc. destruct st as [supabase | | client event payload]; cbn [step].
    + destruct (commit_effect_subscribed supabase _ _ IH) as (live' & ? & _).
      by exists live'.
    + exists None. by apply (unmount_subscribed _ live).
    + exists live. by apply emit_subscribed.
Qed.

(** C8. Through every run of renders, unmounts and auth events of a
    page: a new subscription is made only after the previous one is
    cancelled, so there is at most one callback registered; the callback
    of a cancelled subscription is not called again; after a render
    with a handle, the callback registered is on that handle, and none
    is when there is no handle; after the unmount none is registered. *)
Theorem subscription_cancelled_before_next (steps : list Step)
    (window : option (gmap jsstring jsstring)) :
  let w := run steps (Home_init window) in
  (∀ pre mid post s s',
     calls w = pre ++ Subscribe s :: mid ++ Subscribe s' :: post →
     Unsubscribe s ∈ mid)
  ∧ (∀ pre post s event payload,
       calls w = pre ++ Unsubscribe s :: post →
       Callback s event payload ∉ post)
  ∧ (length (emitters w) ≤ 1)%nat
  ∧ (∀ supabase,
       sub_client <$> emitters (run (steps ++ [Render supabase]) (Home_init window))
       = option_list supabase)
  ∧ emitters (run (steps ++ [Unmount]) (Home_init window)) = [].
Proof.
  cbv zeta. destruct (run_subscribed steps window) as (live & Hw).
  pose proof Hw as (Hlog & Hemitters & _).
  split; [| split; [| split; [| split]]].
  - intros pre mid post s s' Hsplit.
    by apply (lifecycle_cancel_between _ _ _ pre mid post s s' Hlog).
  - intros pre post s event payload Hsplit.
    by apply (lifecycle_no_call_after_cancel _ _ _ pre post s event payload Hlog).
  - rewrite Hemitters. destruct live; cbn; lia.
  - intros supabase. rewrite run_snoc. cbn [step].
    destruct (commit_effect_subscribed supabase _ _ Hw)
      as (live' & (_ & -> & _) & <-).
    by destruct live'.
  - rewrite run_snoc. cbn [step].
    by destruct (unmount_subscribed _ _ Hw) as (_ & -> & _).
Qed.

Lemma subscription_cancelled_before_next_witness :
  let first := {| sub_id := 0; sub_client := client_ref 0 |} in
  let second := {| sub_id := 1; sub_client := client_ref 1 |} in
  calls (run credential_change (Home_init None))
  = [Subscribe first; Callback first TOKEN_REFRESHED (Some a_session);
     Unsubscribe first;
     Subscribe second; Callback second SIGNED_IN (Some a_session)]
  ∧ Unsubscribe first
    ∈ [Callback first TOKEN_REFRESHED (Some a_session); Unsubscribe first]
  ∧ Callback first SIGNED_OUT None
    ∉ [Subscribe second; Callback second SIGNED_IN (Some a_session)].
Proof.
  intros first second.
  destruct (subscription_cancelled_before_next credential_change None)
    as (Hbetween & Hafter & _).
  split; [reflexivity |]. split.
  - apply (Hbetween [] _ [Callback second SIGNED_IN (Some a_session)]
             first second).
    reflexivity.
  - apply (Hafter [Subscribe first; Callback first TOKEN_REFRESHED (Some a_session)]
             _ first SIGNED_OUT None).
    reflexivity.
Defined.

(** ** The parser of the browser never runs out of fuel *)

Module BrowserProperties.
Import Browser.

Lemma skip_whitespace_length (s : jsstring) :
  (length (skip_whitespace s) ≤ length s)%nat.
Proof.
  induction s as [| c s IH]; [done |]. cbn.
  destruct (is_json_whitespace c); cbn; lia.
Qed.

Lemma next_is_length (c : N) (s after : jsstring) :
  next_is c s = Some after → (length after < length s)%nat.
Proof.
  unfold next_is. pose proof (skip_whitespace_length s) as Hskip.
  destruct (skip_whitespace s) as [| x rest]; [done |].
  destruct (x =? c); [| done]. intros [= <-]. cbn in Hskip. lia.
Qed.

Lemma string_chars_length (s str after : jsstring) :
  string_chars s = Some (str, after) → (length after < length s)%nat.
Proof.
  remember (length s) as n eqn:Hn. revert s str after Hn.
  induction n as [n IH] using lt_wf_ind. intros s str after -> Hchars.
  destruct s as [| c rest]; [done |]. cbn in Hchars.
  destruct (c =? 34); [injection Hchars as <- <-; cbn; lia |].
  destruct (c =? 92).
  - destruct rest as [| e rest']; [done |].
    destruct (e =? 117).
    + destruct rest' as [| h1 [| h2 [| h3 [| h4 rest'']]]]; try done.
      destruct (hex_value h1), (hex_value h2), (hex_value h3), (hex_value h4);
        try done.
      cbn in Hchars.
      destruct (string_chars rest'') as [[str' after'] |] eqn:Hrest; [| done].
      injection Hchars as <- <-.
      assert (length after' < length rest'')%nat as Hshorter
        by (eapply (IH (length rest'')); [cbn; lia | reflexivity | exact Hrest]).
      cbn. lia.
    + destruct (escape_value e); [| done]. cbn in Hchars.
      destruct (string_chars rest') as [[str' after'] |] eqn:Hrest; [| done].
      injection Hchars as <- <-.
      assert (length after' < length rest')%nat as Hshorter
        by (eapply (IH (length rest')); [cbn; lia | reflexivity | exact Hrest]).
      cbn. lia.
  - destruct (c <? 32); [done |].
    destruct (string_chars rest) as [[str' after'] |] eqn:Hrest; [| done].
    injection Hchars as <- <-.
    assert (length after' < length rest)%nat as Hshorter
      by (eapply (IH (length rest)); [cbn; lia | reflexivity | exact Hrest]).
    cbn. lia.
Qed.

Lemma digits_length (s ds after : jsstring) :
  digits s = (ds, after) → (length ds + length after = length s)%nat.
Proof.
  revert ds after. induction s as [| c s IH]; intros ds after Hdigits; cbn in *.
  - by injection Hdigits as <- <-.
  - destruct (is_digit c).
    + destruct (digits s) as [ds' after']. injection Hdigits as <- <-.
      specialize (IH ds' after' eq_refl). cbn. lia.
    + injection Hdigits as <- <-. done.
Qed.

Lemma digits1_length (s ds after : jsstring) :
  digits1 s = Some (ds, after) →
  (0 < length ds)%nat ∧ (length ds + length after = length s)%nat.
Proof.
  unfold digits1. destruct (digits s) as [ds' after'] eqn:Hdigits.
  apply digits_length in Hdigits.
  destruct ds' as [| d ds']; [done |]. intros [= <- <-]. cbn in *. lia.
Qed.

Lemma optional_length (chars : list N) (s taken after : jsstring) :
  optional chars s = (taken, after) →
  (length taken + length after = length s)%nat.
Proof.
  destruct s as [| c s]; cbn; [by intros [= <- <-] |].
  case_bool_decide; by intros [= <- <-].
Qed.

Lemma number_int_length (s int after : jsstring) :
  number_int s = Some (int, after) → (length after < length s)%nat.
Proof.
  unfold number_int. destruct (optional [48] s) as [zero s'] eqn:Hzero.
  apply optional_length in Hzero. destruct zero as [| z zero].
  - intros Hd. apply digits1_length in Hd. lia.
  - intros [= <- <-]. cbn in Hzero. lia.
Qed.

Lemma number_frac_length (s frac after : jsstring) :
  number_frac s = Some (frac, after) → (length after ≤ length s)%nat.
Proof.
  unfold number_frac. destruct (optional [46] s) as [point s'] eqn:Hpoint.
  apply optional_length in Hpoint. destruct point as [| pt point].
  - by intros [= <- <-].
  - destruct (digits1 s') as [[ds after'] |] eqn:Hd; [| done].
    apply digits1_length in Hd. intros [= <- <-]. cbn in Hpoint. lia.
Qed.

Lemma number_exp_length (s exp after : jsstring) :
  number_exp s = Some (exp, after) → (length after ≤ length s)%nat.
Proof.
  unfold number_exp. destruct (optional [101; 69] s) as [e s'] eqn:He.
  apply optional_length in He. destruct e as [| e0 e].
  - by intros [= <- <-].
  - destruct (optional [43; 45] s') as [esign s''] eqn:Hesign.
    apply optional_length in Hesign.
    destruct (digits1 s'') as [[ds after'] |] eqn:Hd; [| done].
    apply digits1_length in Hd. intros [= <- <-]. cbn in He. lia.
Qed.

Lemma number_literal_length (s text after : jsstring) :
  number_literal s = Some (text, after) → (length after < length s)%nat.
Proof.
  unfold number_literal. destruct (optional [45] s) as [sign s1] eqn:Hsign.
  apply optional_length in Hsign.
  destruct (number_int s1) as [[int s2] |] eqn:Hint; [| done].
  apply number_int_length in Hint. cbn.
  destruct (number_frac s2) as [[frac s3] |] eqn:Hfrac; [| done].
  apply number_frac_length in Hfrac. cbn.
  destruct (number_exp s3) as [[exp s4] |] eqn:Hexp; [| done].
  apply number_exp_length in Hexp. cbn.
  intros [= <- <-]. lia.
Qed.

Lemma keyword_length (text : string) (v v' : value) (s after : jsstring) :
  (0 < length (js text))%nat →
  keyword text v s = Parsed v' after → (length after < length s)%nat.
Proof.
  intros Hpos. unfold keyword. case_bool_decide as Htake; [| done].
  intros [= <- <-]. rewrite length_drop.
  assert (length (take (length (js text)) s) = length (js text)) as Hlen
    by (by rewrite Htake).
  rewrite length_take in Hlen. lia.
Qed.

Lemma parsed_map_Parsed {A B} (f : A → B) (p : parsed A) (b : B) (after : jsstring) :
  parsed_map f p = Parsed b after → ∃ a, p = Parsed a after.
Proof. destruct p; [intros [= <- <-]; eauto | done | done]. Qed.

Lemma of_option_Parsed {A} (o : option (A * jsstring)) (a : A) (after : jsstring) :
  of_option o = Parsed a after → o = Some (a, after).
Proof. destruct o as [[a' after'] |]; [by intros [= <- <-] | done]. Qed.

Lemma parse_value_S (fuel : nat) (s : jsstring) :
  parse_value (S fuel) s =
    match skip_whitespace s with
    | [] => Unexpected
    | c :: rest =>
        if c =? 123 then
          match next_is 125 rest with
          | Some after => Parsed (JObject []) after
          | None => parsed_map JObject (parse_members fuel rest)
          end
        else if c =? 91 then
          match next_is 93 rest with
          | Some after => Parsed (JArray []) after
          | None => parsed_map JArray (parse_elements fuel rest)
          end
        else if c =? 34 then
          of_option (prod_map JString id <$> string_chars rest)
        else if c =? 116 then keyword "true" (JBool true) (c :: rest)
        else if c =? 102 then keyword "false" (JBool false) (c :: rest)
        else if c =? 110 then keyword "null" JNull (c :: rest)
        else of_option (prod_map JNumber id <$> number_literal (c :: rest))
    end.
Proof. reflexivity. Qed.

Lemma parse_elements_S (fuel : nat) (s : jsstring) :
  parse_elements (S fuel) s =
    match parse_value fuel s with
    | Parsed v rest =>
        match next_is 44 rest with
        | Some after => parsed_map (cons v) (parse_elements fuel after)
        | None =>
            match next_is 93 rest with
            | Some after => Parsed [v] after
            | None => Unexpected
            end
        end
    | Unexpected => Unexpected
    | NoFuel => NoFuel
    end.
Proof. reflexivity. Qed.

Lemma parse_members_S (fuel : nat) (s : jsstring) :
  parse_members (S fuel) s =
    match next_is 34 s with
    | None => Unexpected
    | Some rest =>
        match string_chars rest with
        | None => Unexpected
        | Some (name, rest) =>
            match next_is 58 rest with
            | None => Unexpected
            | Some rest =>
                match parse_value fuel rest with
                | Parsed v rest =>
                    match next_is 44 rest with
                    | Some after =>
                        parsed_map (cons (name, v)) (parse_members fuel after)
                    | None =>
                        match next_is 125 rest with
                        | Some after => Parsed [(name, v)] after
                        | None => Unexpected
                        end
                    end
                | Unexpected => Unexpected
                | NoFuel => NoFuel
                end
            end
        end
    end.
Proof. reflexivity. Qed.

(** What is parsed is taken from the text: the rest is shorter. *)
Lemma parse_length (fuel : nat) :
  (∀ s v after, parse_value fuel s = Parsed v after →
                (length after < length s)%nat)
  ∧ (∀ s vs after, parse_elements fuel s = Parsed vs after →
                   (length after < length s)%nat)
  ∧ (∀ s ms after, parse_members fuel s = Parsed ms after →
                   (length after < length s)%nat).
Proof.
  induction fuel as [| fuel (IHv & IHe & IHm)]; [done |].
  split; [| split].
  - intros s v after. rewrite parse_value_S.
    pose proof (skip_whitespace_length s) as Hskip.
    destruct (skip_whitespace s) as [| c rest]; [done |]. cbn in Hskip.
    destruct (c =? 123).
    { destruct (next_is 125 rest) as [after' |] eqn:Hclose.
      - apply next_is_length in Hclose. intros [= <- <-]. lia.
      - intros [ms Hms]%parsed_map_Parsed. apply IHm in Hms. lia. }
    destruct (c =? 91).
    { destruct (next_is 93 rest) as [after' |] eqn:Hclose.
      - apply next_is_length in Hclose. intros [= <- <-]. lia.
      - intros [vs Hvs]%parsed_map_Parsed. apply IHe in Hvs. lia. }
    destruct (c =? 34).
    { intros Hstr%of_option_Parsed.
      destruct (string_chars rest) as [[str after'] |] eqn:Hchars; [| done].
      apply string_chars_length in Hchars. injection Hstr as <- <-. lia. }
    destruct (c =? 116);
      [intros Hk%keyword_length; [cbn in Hk; lia | cbn; lia] |].
    destruct (c =? 102);
      [intros Hk%keyword_length; [cbn in Hk; lia | cbn; lia] |].
    destruct (c =? 110);
      [intros Hk%keyword_length; [cbn in Hk; lia | cbn; lia] |].
    intros Hnum%of_option_Parsed.
    destruct (number_literal (c :: rest)) as [[text after'] |] eqn:Hlit; [| done].
    apply number_literal_length in Hlit. injection Hnum as <- <-.
    cbn in Hlit. lia.
  - intros s vs after. rewrite parse_elements_S.
    destruct (parse_value fuel s) as [v rest | |] eqn:Hv; [| done | done].
    apply IHv in Hv.
    destruct (next_is 44 rest) as [after' |] eqn:Hcomma.
    + apply next_is_length in Hcomma.
      intros [vs' Hvs]%parsed_map_Parsed. apply IHe in Hvs. lia.
    + destruct (next_is 93 rest) as [after' |] eqn:Hclose; [| done].
      apply next_is_length in Hclose. intros [= <- <-]. lia.
  - intros s ms after. rewrite parse_members_S.
    destruct (next_is 34 s) as [rest1 |] eqn:Hquote; [| done].
    apply next_is_length in Hquote.
    destruct (string_chars rest1) as [[name rest2] |] eqn:Hname; [| done].
    apply string_chars_length in Hname.
    destruct (next_is 58 rest2) as [rest3 |] eqn:Hcolon; [| done].
    apply next_is_length in Hcolon.
    destruct (parse_value fuel rest3) as [v rest4 | |] eqn:Hv; [| done | done].
    apply IHv in Hv.
    destruct (next_is 44 rest4) as [after' |] eqn:Hcomma.
    + apply next_is_length in Hcomma.
      intros [ms' Hms]%parsed_map_Parsed. apply IHm in Hms. lia.
    + destruct (next_is 125 rest4) as [after' |] eqn:Hclose; [| done].
      apply next_is_length in Hclose. intros [= <- <-]. lia.
Qed.

Lemma parsed_map_NoFuel {A B} (f : A → B) (p : parsed A) :
  parsed_map f p = NoFuel → p = NoFuel.
Proof. by destruct p. Qed.

(** Twice the length of the text, and one or two calls more, is fuel
    enough. *)
Lemma parse_fuel (fuel : nat) :
  (∀ s, (2 * length s + 1 ≤ fuel)%nat → parse_value fuel s ≠ NoFuel)
  ∧ (∀ s, (2 * length s + 2 ≤ fuel)%nat → parse_elements fuel s ≠ NoFuel)
  ∧ (∀ s, (2 * length s + 2 ≤ fuel)%nat → parse_members fuel s ≠ NoFuel).
Proof.
  induction fuel as [| fuel (IHv & IHe & IHm)];
    [repeat split; intros s Hfuel; lia |].
  split; [| split].
  - intros s Hfuel. rewrite parse_value_S.
    pose proof (skip_whitespace_length s) as Hskip.
    destruct (skip_whitespace s) as [| c rest]; [done |]. cbn in Hskip.
    destruct (c =? 123).
    { destruct (next_is 125 rest); [done |].
      intros Hms%parsed_map_NoFuel. revert Hms. apply IHm. lia. }
    destruct (c =? 91).
    { destruct (next_is 93 rest); [done |].
      intros Hvs%parsed_map_NoFuel. revert Hvs. apply IHe. lia. }
    destruct (c =? 34); [by destruct (string_chars rest) as [[] |] |].
    unfold keyword.
    destruct (c =? 116); [by case_bool_decide |].
    destruct (c =? 102); [by case_bool_decide |].
    destruct (c =? 110); [by case_bool_decide |].
    by destruct (number_literal (c :: rest)) as [[] |].
  - intros s Hfuel. rewrite parse_elements_S.
    destruct (parse_value fuel s) as [v rest | |] eqn:Hv; [| done |].
    + apply (proj1 (parse_length fuel)) in Hv.
      destruct (next_is 44 rest) as [after |] eqn:Hcomma.
      * apply next_is_length in Hcomma.
        intros Hvs%parsed_map_NoFuel. revert Hvs. apply IHe. lia.
      * by destruct (next_is 93 rest).
    + exfalso. revert Hv. apply IHv. lia.
  - intros s Hfuel. rewrite parse_members_S.
    destruct (next_is 34 s) as [rest1 |] eqn:Hquote; [| done].
    apply next_is_length in Hquote.
    destruct (string_chars rest1) as [[name rest2] |] eqn:Hname; [| done].
    apply string_chars_length in Hname.
    destruct (next_is 58 rest2) as [rest3 |] eqn:Hcolon; [| done].
    apply next_is_length in Hcolon.
    destruct (parse_value fuel rest3) as [v rest4 | |] eqn:Hv; [| done |].
    + apply (proj1 (parse_length fuel)) in Hv.
      destruct (next_is 44 rest4) as [after |] eqn:Hcomma.
      * apply next_is_length in Hcomma.
        intros Hms%parsed_map_NoFuel. revert Hms. apply IHm. lia.
      * by destruct (next_is 125 rest4).
    + exfalso. revert Hv. apply IHv. lia.
Qed.

(** [JSON.parse] reads the whole text with the fuel it gives itself. *)
Lemma parse_value_fuel (text : jsstring) :
  parse_value (2 * length text + 1) text ≠ NoFuel.
Proof. by apply parse_fuel. Qed.

End BrowserProperties.

(** * Further properties *)

(** ** The key guard reads the payload only *)

Lemma split_nonempty (sep : N) (s : jsstring) : split sep s ≠ [].
Proof.
  destruct s as [| c s]; cbn; [done |].
  destruct (c =? sep); [done |]. by destruct (split sep s).
Qed.

Lemma split_free (sep : N) (s : jsstring) : sep ∉ s → split sep s = [s].
Proof.
  induction s as [| c s IH]; intros Hfree; cbn; [done |].
  apply not_elem_of_cons in Hfree as [Hne Hfree].
  destruct (N.eqb_spec c sep) as [-> | _]; [done |].
  by rewrite (IH Hfree).
Qed.

Lemma split_app (sep : N) (first rest : jsstring) :
  sep ∉ first → split sep (first ++ sep :: rest) = first :: split sep rest.
Proof.
  induction first as [| c first IH]; intros Hfree; cbn.
  - by rewrite N.eqb_refl.
  - apply not_elem_of_cons in Hfree as [Hne Hfree].
    destruct (N.eqb_spec c sep) as [-> | _]; [done |].
    by rewrite (IH Hfree).
Qed.

(** The segments hold no dot, and joined by dots they give the text
    back. *)
Lemma split_dotted (s : jsstring) :
  Forall (fun seg => dot ∉ seg) (split dot s) ∧ dotted (split dot s) = s.
Proof.
  induction s as [| c s [IHfree IHjoin]]; cbn.
  - split; [| done]. repeat constructor. apply not_elem_of_nil.
  - destruct (N.eqb_spec c dot) as [-> | Hne].
    + split; [constructor; [apply not_elem_of_nil | done] |].
      pose proof (split_nonempty dot s) as Hsegs.
      destruct (split dot s) as [| seg segs]; [done |].
      cbn in *. by rewrite IHjoin.
    + pose proof (split_nonempty dot s) as Hsegs.
      destruct (split dot s) as [| seg segs]; [done |].
      apply Forall_cons in IHfree as [Hseg Hsegs'].
      split; [constructor; [| done] |].
      * apply not_elem_of_cons. done.
      * cbn in *. by rewrite IHjoin.
Qed.

Lemma split_three (header payload signature : jsstring) :
  dot ∉ header → dot ∉ payload → dot ∉ signature →
  split dot (dotted [header; payload; signature]) = [header; payload; signature].
Proof.
  intros Hh Hp Hs. cbn. rewrite app_nil_r.
  change (header ++ (dot :: payload) ++ dot :: signature)
    with (header ++ dot :: (payload ++ dot :: signature)).
  rewrite (split_app _ _ _ Hh), (split_app _ _ _ Hp). by rewrite split_free.
Qed.

(** X1. When [checkForServiceRole] answers [true], the text is three
    segments without a dot joined by two dots, [atob] decodes the middle
    one, [JSON.parse] parses what it gives as an object, and the last
    member [role] of that object is the string [service_role]. *)
Theorem checkForServiceRole_true_only `{Platform} (jwt : jsstring) :
  checkForServiceRole jwt = Normal true →
  ∃ header payload signature json members,
    jwt = dotted [header; payload; signature]
    ∧ (dot ∉ header) ∧ (dot ∉ payload) ∧ (dot ∉ signature)
    ∧ atob payload = Normal json
    ∧ JSON_parse json = Normal (JObject members)
    ∧ own_property (js "role") members = Some (JString (js "service_role")).
Proof.
  intros Htrue.
  destruct (split_dotted jwt) as [Hfree Hjoin].
  destruct (decide (length (split dot jwt) = 3%nat)) as [Hlen | Hlen];
    [| by rewrite (checkForServiceRole_not_three _ Hlen) in Htrue].
  destruct (split dot jwt) as [| header [| payload [| signature [| ? ?]]]] eqn:Hsplit;
    try done.
  rewrite (checkForServiceRole_three _ _ _ _ Hsplit) in Htrue.
  destruct (atob payload) as [json | e] eqn:Hatob; [| done].
  change (Normal json ≫= _) with
    (data ← JSON_parse json; role ← get_role data;
     Normal (strict_equals_string role (js "service_role"))) in Htrue.
  destruct (JSON_parse json) as [data | e] eqn:Hparse; [| done].
  change (try_catch (Normal data ≫= _) _) with
    (try_catch (role ← get_role data;
                Normal (strict_equals_string role (js "service_role")))
               (fun _ => Normal false)) in Htrue.
  rewrite get_role_decoded in Htrue. injection Htrue as Hrole.
  apply strict_equals_string_true in Hrole.
  destruct data as [| | | | | members]; try done.
  apply Forall_cons in Hfree as [Hh Hfree].
  apply Forall_cons in Hfree as [Hp Hfree].
  apply Forall_cons in Hfree as [Hs _].
  exists header, payload, signature, json, members. by rewrite Hjoin.
Qed.

Lemma checkForServiceRole_true_only_witness :
  ∃ header payload signature json members,
    service_role_token = dotted [header; payload; signature]
    ∧ (dot ∉ header) ∧ (dot ∉ payload) ∧ (dot ∉ signature)
    ∧ atob payload = Normal json
    ∧ JSON_parse json = Normal (JObject members)
    ∧ own_property (js "role") members = Some (JString (js "service_role")).
Proof.
  apply (checkForServiceRole_true_only service_role_token). by vm_compute.
Defined.

(** X2. The answer of [checkForServiceRole] on a text of three segments
    depends on the middle segment only: whatever the header and the
    signature are, and nothing of the signature is verified. *)
Theorem checkForServiceRole_payload_only `{Platform}
    (header signature header' signature' payload : jsstring) :
  dot ∉ header → dot ∉ signature → dot ∉ header' → dot ∉ signature' →
  dot ∉ payload →
  checkForServiceRole (dotted [header; payload; signature])
  = checkForServiceRole (dotted [header'; payload; signature']).
Proof.
  intros Hh Hs Hh' Hs' Hp.
  rewrite (checkForServiceRole_three _ header payload signature)
    by by apply split_three.
  by rewrite (checkForServiceRole_three _ header' payload signature')
    by by apply split_three.
Qed.

Lemma checkForServiceRole_payload_only_witness :
  checkForServiceRole (dotted [js "forged"; js "eyJyb2xlIjoic2VydmljZV9yb2xlIn0"; []])
  = checkForServiceRole service_role_token.
Proof.
  apply (checkForServiceRole_payload_only (js "forged") []
           (js "eyJhbGciOiJIUzI1NiJ9") (js "sig")
           (js "eyJyb2xlIjoic2VydmljZV9yb2xlIn0"));
    refine (bool_decide_unpack _ _); vm_compute; exact I.
Defined.

(** ** The client factory, on every path *)

Section FactoryPaths.
Context `{Platform}.

(** The function of [useMemo], by the cells and by what the constructor
    does. *)
Lemma supabase_memo_cases (w : World) :
  supabase_memo w =
    match truthy_string (key w), truthy_string (url w) with
    | Some k, Some u =>
        match createClient_throws u k with
        | None =>
            (Normal (Some (client_ref (next_client w))),
             state_of (setError None (state_of (createClient u k w))))
        | Some e => (Normal None, state_of (setError (Some (message e)) w))
        end
    | _, _ => (Normal None, state_of (setError (Some credentials_required) w))
    end.
Proof.
  unfold supabase_memo.
  destruct (truthy_string (key w)) as [k |], (truthy_string (url w)) as [u |];
    try reflexivity.
  unfold try_catch_M, createClient. cbv [mbind M_bind].
  by destruct (createClient_throws u k).
Qed.

End FactoryPaths.

(** X3. When both cells are filled and the client constructor throws,
    the function of [useMemo] gives no client and puts the message of
    what was thrown in the error cell. *)
Theorem supabase_memo_constructor_failure `{Platform} (w : World)
    (k u : jsstring) (e : exn) :
  truthy_string (key w) = Some k →
  truthy_string (url w) = Some u →
  createClient_throws u k = Some e →
  let w' := state_of (supabase_memo w) in
  supabase_memo w = (Normal None, w')
  ∧ error w' = Some (message e)
  ∧ next_client w' = next_client w.
Proof.
  intros Hk Hu He. rewrite supabase_memo_cases, Hk, Hu, He. done.
Qed.

Lemma supabase_memo_constructor_failure_witness :
  let w := Home_init (Some {[ KEY_STORAGE_KEY := anon_token;
                              URL_STORAGE_KEY := js "project.supabase.co" ]}) in
  supabase_memo (H := strict_platform) w
  = (Normal None, state_of (supabase_memo (H := strict_platform) w))
  ∧ error (state_of (supabase_memo (H := strict_platform) w))
    = Some (js "Invalid URL").
Proof.
  destruct (supabase_memo_constructor_failure (H := strict_platform)
              (Home_init (Some {[ KEY_STORAGE_KEY := anon_token;
                                  URL_STORAGE_KEY := js "project.supabase.co" ]}))
              anon_token (js "project.supabase.co") (Error (js "Invalid URL")))
    as (Hrun & Herror & _); [by vm_compute | by vm_compute | by vm_compute |].
  split; [exact Hrun | exact Herror].
Defined.



(** X5. What the function of [useMemo] leaves in the error cell depends
    on the key cell and the URL cell only: an error left by an earlier
    run is overwritten, and a second run on the same cells leaves the
    same error. *)
Theorem supabase_memo_error_of_credentials `{Platform} (w1 w2 : World) :
  key w1 = key w2 → url w1 = url w2 →
  error (state_of (supabase_memo w1)) = error (state_of (supabase_memo w2))
  ∧ error (state_of (supabase_memo (state_of (supabase_memo w1))))
    = error (state_of (supabase_memo w1)).
Proof.
  intros Hkey Hurl.
  assert (∀ wa wb, key wa = key wb → url wa = url wb →
            error (state_of (supabase_memo wa)) = error (state_of (supabase_memo wb)))
    as Hsame.
  { intros wa wb Hk Hu. rewrite !supabase_memo_cases, Hk, Hu.
    destruct (truthy_string (key wb)) as [k |]; [| done].
    destruct (truthy_string (url wb)) as [u |]; [| done].
    unfold createClient. by destruct (createClient_throws u k). }
  split; [by apply Hsame |]. apply Hsame.
  - rewrite supabase_memo_cases.
    destruct (truthy_string (key w1)) as [k |]; [| done].
    destruct (truthy_string (url w1)) as [u |]; [| done].
    unfold createClient. by destruct (createClient_throws u k).
  - rewrite supabase_memo_cases.
    destruct (truthy_string (key w1)) as [k |]; [| done].
    destruct (truthy_string (url w1)) as [u |]; [| done].
    unfold createClient. by destruct (createClient_throws u k).
Qed.

Lemma supabase_memo_error_of_credentials_witness :
  let w := Home_init (Some {[ KEY_STORAGE_KEY := anon_token;
                              URL_STORAGE_KEY := js "https://project.supabase.co" ]}) in
  let stale := state_of (setError (Some (js "Invalid URL")) w) in
  error stale = Some (js "Invalid URL")
  ∧ error (state_of (supabase_memo stale)) = error (state_of (supabase_memo w)).
Proof.
  intros w stale. split; [by vm_compute |].
  apply (supabase_memo_error_of_credentials stale w); by vm_compute.
Defined.

(** ** The input handlers and the storage *)

(** X6. A rejected key leaves the page without a client: after
    [updateKey] has refused a candidate, the function of [useMemo] gives
    no client and the error cell asks for the credentials, whatever the
    URL cell holds. *)
Theorem rejected_key_gives_no_client `{Platform} (candidate : jsstring) (w : World) :
  checkForServiceRole candidate = Normal true →
  let w' := state_of (updateKey candidate w) in
  let w'' := state_of (supabase_memo w') in
  supabase_memo w' = (Normal None, w'')
  ∧ error w'' = Some credentials_required
  ∧ key w'' = Some []
  ∧ localStorage w'' = localStorage w.
Proof.
  intros Hcheck. cbv zeta. rewrite updateKey_cases, Hcheck.
  by rewrite supabase_memo_cases.
Qed.

Lemma rejected_key_gives_no_client_witness :
  let w := Home_init (Some {[ KEY_STORAGE_KEY := anon_token;
                              URL_STORAGE_KEY := js "https://project.supabase.co" ]}) in
  let w'' := state_of (supabase_memo (state_of (updateKey service_role_token w))) in
  error w'' = Some credentials_required
  ∧ localStorage w'' !! KEY_STORAGE_KEY = Some anon_token.
Proof.
  intros w w''.
  destruct (rejected_key_gives_no_client service_role_token w)
    as (_ & Herror & _ & Hstorage); [by vm_compute |].
  split; [exact Herror |]. subst w''. rewrite Hstorage. by vm_compute.
Defined.

(** Runs the primitive steps of a handler. *)
Ltac run_handler :=
  cbv [state_of mbind M_bind mret M_ret setKey setUrl setError alert
       localStorage_setItem record_call];
  cbn.

Section StorageProperties.
Context `{Platform}.

Lemma Home_init_mirrored window : mirrored (Home_init window).
Proof. destruct window as [storage |]; split; cbn; eauto. Qed.

Lemma storage_names_differ : URL_STORAGE_KEY ≠ KEY_STORAGE_KEY.
Proof. by vm_compute. Qed.

Lemma write_mirrored (wr : Write) (w : World) :
  mirrored w → mirrored (state_of (write wr w)).
Proof.
  intros [Hurl Hkey]. destruct wr as [candidate | text]; cbn [write].
  - rewrite updateKey_cases.
    destruct (checkForServiceRole candidate) as [[] | e]; [split | split | done].
    + done.
    + by right.
    + run_handler. rewrite lookup_insert_ne; [done |].
      intros Heq. by apply storage_names_differ.
    + left. run_handler. by rewrite lookup_insert_eq.
  - split; unfold updateUrl; run_handler.
    + by rewrite lookup_insert_eq.
    + rewrite lookup_insert_ne; [done |]. apply storage_names_differ.
Qed.

(** What a write leaves alone. *)
Lemma write_frame (wr : Write) (w : World) :
  let w' := state_of (write wr w) in
  session w' = session w ∧ error w' = error w
  ∧ emitters w' = emitters w ∧ next_client w' = next_client w
  ∧ ∀ name, name ≠ URL_STORAGE_KEY → name ≠ KEY_STORAGE_KEY →
            localStorage w' !! name = localStorage w !! name.
Proof.
  destruct wr as [candidate | text]; cbn [write].
  - rewrite updateKey_cases.
    destruct (checkForServiceRole candidate) as [[] | e]; try done.
    repeat split. intros name _ Hname. run_handler. by rewrite lookup_insert_ne.
  - repeat split. intros name Hname _. unfold updateUrl. run_handler.
    by rewrite lookup_insert_ne.
Qed.

(** The calls a write makes. *)
Lemma write_calls (wr : Write) (w : World) :
  ∃ added, calls (state_of (write wr w)) = calls w ++ added
           ∧ Forall handler_call added.
Proof.
  destruct wr as [candidate | text]; cbn [write].
  - rewrite updateKey_cases.
    destruct (checkForServiceRole candidate) as [[] | e] eqn:Hcheck.
    + exists [Alert service_role_warning]. split; [done |].
      by apply Forall_singleton.
    + exists [SetItem KEY_STORAGE_KEY candidate]. split; [done |].
      apply Forall_singleton. by right.
    + exists []. split; [by rewrite app_nil_r | constructor].
  - exists [SetItem URL_STORAGE_KEY text]. split; [done |].
    apply Forall_singleton. by left.
Qed.

End StorageProperties.

(** X7. Through every sequence of writes of the two inputs, from the
    page as it mounts, the URL cell is what the storage holds under
    [SB_URL], and the key cell is what it holds under [SB_KEY] or is the
    empty string a rejection leaves. So a page that mounts on that
    storage starts with the same URL, and with the same key unless the
    key cell was emptied. *)
Theorem cells_mirror_storage `{Platform} (writes : list Write)
    (window : option (gmap jsstring jsstring)) :
  let w := run_writes writes (Home_init window) in
  let reloaded := Home_init (Some (localStorage w)) in
  url w = localStorage w !! URL_STORAGE_KEY
  ∧ (key w = localStorage w !! KEY_STORAGE_KEY ∨ key w = Some [])
  ∧ url reloaded = url w
  ∧ (key reloaded = key w ∨ key w = Some []).
Proof.
  cbv zeta.
  assert (mirrored (run_writes writes (Home_init window))) as [Hurl Hkey].
  { induction writes as [| wr writes IH] using rev_ind;
      [apply Home_init_mirrored |].
    rewrite run_writes_snoc. by apply write_mirrored. }
  split; [done |]. split; [done |]. split; [done |].
  destruct Hkey as [Hkey | Hkey]; [left | by right]. done.
Qed.

(** X8. The input handlers write nothing but the two credential cells
    and the two storage names: through every sequence of writes the
    session cell, the error cell, the registered callbacks and every
    other name of the storage are as before. *)
Theorem writes_touch_credentials_only `{Platform} (writes : list Write) (w : World) :
  let w' := run_writes writes w in
  session w' = session w ∧ error w' = error w
  ∧ emitters w' = emitters w ∧ next_client w' = next_client w
  ∧ ∀ name, name ≠ URL_STORAGE_KEY → name ≠ KEY_STORAGE_KEY →
            localStorage w' !! name = localStorage w !! name.
Proof.
  cbv zeta. induction writes as [| wr writes IH] using rev_ind; [done |].
  rewrite run_writes_snoc.
  destruct (write_frame wr (run_writes writes w)) as (Hs & He & Hm & Hn & Hl).
  destruct IH as (IHs & IHe & IHm & IHn & IHl).
  rewrite Hs, He, Hm, Hn. repeat split; try done.
  intros name Hurl Hkey. by rewrite Hl, IHl.
Qed.

Lemma writes_touch_credentials_only_witness :
  let w := Home_init (Some {[ js "theme" := js "dark" ]}) in
  localStorage
    (run_writes [WriteUrl (js "https://project.supabase.co"); WriteKey anon_token;
                 WriteKey service_role_token] w) !! js "theme"
  = Some (js "dark").
Proof.
  intros w.
  destruct (writes_touch_credentials_only
              [WriteUrl (js "https://project.supabase.co"); WriteKey anon_token;
               WriteKey service_role_token] w) as (_ & _ & _ & _ & Hother).
  rewrite Hother; by vm_compute.
Defined.

(** X9. Through every sequence of writes of the two inputs, the calls
    made are the warning, [setItem] under [SB_URL], and [setItem] under
    [SB_KEY] with a text on which [checkForServiceRole] has answered
    [false]: no text the guard classifies as privileged is ever passed
    to the storage under the key name. *)
Theorem writes_call_alert_and_setItem `{Platform} (writes : list Write) (w : World) :
  ∃ added, calls (run_writes writes w) = calls w ++ added
           ∧ Forall handler_call added.
Proof.
  induction writes as [| wr writes (added & Hcalls & Hadded)] using rev_ind.
  - exists []. split; [by rewrite app_nil_r | constructor].
  - rewrite run_writes_snoc.
    destruct (write_calls wr (run_writes writes w)) as (more & Hmore & Hok).
    exists (added ++ more). split.
    + by rewrite Hmore, Hcalls, app_assoc.
    + by apply Forall_app.
Qed.

(** ** The session cell over a run of events *)

Lemma auth_callback_effective (event : jsstring) (payload : option Session) (w : World) :
  session (state_of (auth_callback event payload w))
  = if effective (event, payload) then session_after (event, payload)
    else session w.
Proof.
  rewrite auth_callback_session. unfold effective, session_after. cbn [fst snd].
  destruct (bool_decide (event = SIGNED_OUT)) eqn:Hout.
  - by destruct (truthy_object payload && _).
  - cbn. by destruct (truthy_object payload && _).
Qed.

(** X10. Auth events write the session cell only: through every run of
    events the credential cells, the error cell, the storage, the
    registered callbacks and the calls made are as before. *)
Theorem reconcile_writes_session_only (events : list (jsstring * option Session))
    (w : World) :
  let w' := reconcile events w in
  key w' = key w ∧ url w' = url w ∧ error w' = error w
  ∧ localStorage w' = localStorage w ∧ calls w' = calls w
  ∧ emitters w' = emitters w ∧ effect_cleanup w' = effect_cleanup w.
Proof.
  cbv zeta. induction events as [| [event payload] events IH] using rev_ind;
    [done |].
  rewrite reconcile_snoc, auth_callback_session.
  by destruct (truthy_object payload && _), (bool_decide (event = SIGNED_OUT)).
Qed.

(** X11. The last event that counts wins: after a run of events the
    session cell is [null] when the last [SIGNED_OUT], or [SIGNED_IN] or
    [TOKEN_REFRESHED] with a session, is a [SIGNED_OUT]; it is the
    session of that event otherwise; and it is as before when the run
    has no such event. *)
Theorem reconcile_last_effective (events : list (jsstring * option Session))
    (w : World) :
  session (reconcile events w)
  = match last (filter (fun ev => effective ev) events) with
    | Some ev => session_after ev
    | None => session w
    end.
Proof.
  induction events as [| [event payload] events IH] using rev_ind; [done |].
  rewrite reconcile_snoc, auth_callback_effective, filter_app.
  destruct (effective (event, payload)) eqn:Heff.
  - rewrite filter_cons_True, filter_nil by by rewrite Heff.
    by rewrite last_snoc.
  - rewrite filter_cons_False, filter_nil by (rewrite Heff; cbn; auto).
    by rewrite app_nil_r.
Qed.

(** ** One callback, on the current client *)

Lemma commit_effect_deps (supabase : option SupabaseClient) (w : World) :
  ∃ w', commit_effect supabase w = (Normal (), w')
        ∧ effect_deps w' = Some supabase.
Proof.
  unfold commit_effect. case_bool_decide as Hdeps; [by exists w |].
  destruct (effect_cleanup w) as [[s] |], supabase as [client |];
    run_M; eauto.
Qed.

Lemma emit_no_listener (client : SupabaseClient) (event : jsstring)
    (payload : option Session) (w : World) :
  Forall (fun s => sub_client s ≠ client) (emitters w) →
  emit client event payload w = (Normal (), w).
Proof.
  intros Hnone. unfold emit.
  assert (filter (fun s => sub_client s = client) (emitters w) = []) as ->; [| done].
  induction Hnone as [| s l Hs _ IH]; [done |].
  by rewrite filter_cons_False.
Qed.

Lemma callback_session (s : Subscription) (event : jsstring)
    (payload : option Session) (w : World) :
  session (state_of ((record_call (Callback s event payload);;
                      auth_callback event payload;;
                      mret ()) w))
  = session (state_of (auth_callback event payload w)).
Proof.
  cbv [mbind M_bind record_call]. rewrite !auth_callback_session.
  by destruct (truthy_object payload && _), (bool_decide (event = SIGNED_OUT)).
Qed.

Lemma filter_snoc_true (P : Call → bool) (log : list Call) (c : Call) :
  P c = true →
  length (filter (fun c => P c) (log ++ [c]))
  = S (length (filter (fun c => P c) log)).
Proof.
  intros Hc. rewrite filter_app, length_app, filter_cons_True, filter_nil
    by by rewrite Hc.
  cbn. lia.
Qed.

Lemma filter_snoc_false (P : Call → bool) (log : list Call) (c : Call) :
  P c = false →
  length (filter (fun c => P c) (log ++ [c]))
  = length (filter (fun c => P c) log).
Proof.
  intros Hc. rewrite filter_app, length_app, filter_cons_False, filter_nil
    by (rewrite Hc; cbn; auto).
  cbn. lia.
Qed.

Lemma lifecycle_balance (log : list Call) (live : option Subscription) (n : nat) :
  lifecycle log live n →
  length (filter (fun c => is_subscribe c) log) = n
  ∧ length (filter (fun c => is_subscribe c) log)
    = (length (filter (fun c => is_unsubscribe c) log)
       + length (option_list live))%nat.
Proof.
  induction 1 as [| log n client _ [IHn IH] | log s n _ [IHn IH]
                  | log s n event payload _ [IHn IH]]; [done | | |].
  - rewrite (filter_snoc_true is_subscribe), (filter_snoc_false is_unsubscribe)
      by done.
    cbn in *. lia.
  - rewrite (filter_snoc_false is_subscribe), (filter_snoc_true is_unsubscribe)
      by done.
    cbn in *. lia.
  - rewrite (filter_snoc_false is_subscribe), (filter_snoc_false is_unsubscribe)
      by done.
    cbn in *. lia.
Qed.

(** X12. The page subscribes once per client: a render in which
    [useMemo] gives the client of the previous render runs neither the
    cleanup nor the effect, and leaves the state as it is. *)
Theorem render_same_client_keeps_subscription (supabase : option SupabaseClient)
    (w : World) :
  let w' := state_of (step (Render supabase) w) in
  step (Render supabase) w' = (Normal (), w').
Proof.
  cbv zeta. cbn [step].
  destruct (commit_effect_deps supabase w) as (w' & -> & Hdeps).
  unfold commit_effect, state_of. cbn [snd].
  by rewrite bool_decide_eq_true_2.
Qed.

(** X13. An event of a client that is not the current one reaches no
    callback of the page: after a render with another client or with
    none, and after the unmount, such an event leaves the whole state,
    the session cell with it, as it is. *)
Theorem stale_client_event_ignored (steps : list Step)
    (window : option (gmap jsstring jsstring)) (client : SupabaseClient)
    (event : jsstring) (payload : option Session) :
  (∀ supabase, supabase ≠ Some client →
     run (steps ++ [Render supabase; AuthEvent client event payload]) (Home_init window)
     = run (steps ++ [Render supabase]) (Home_init window))
  ∧ run (steps ++ [Unmount; AuthEvent client event payload]) (Home_init window)
    = run (steps ++ [Unmount]) (Home_init window).
Proof.
  destruct (run_subscribed steps window) as (live & Hw).
  split.
  - intros supabase Hstale.
    change (steps ++ [Render supabase; AuthEvent client event payload])
      with (steps ++ [Render supabase] ++ [AuthEvent client event payload]).
    rewrite app_assoc, (run_snoc (steps ++ _)), run_snoc. cbn [step].
    destruct (commit_effect_subscribed supabase _ _ Hw)
      as (live' & (_ & Hemitters & _) & Hclient).
    rewrite emit_no_listener; [done |].
    rewrite Hemitters. destruct live' as [s |]; [| constructor].
    apply Forall_singleton. intros Hs. apply Hstale. by rewrite <- Hclient, <- Hs.
  - change (steps ++ [Unmount; AuthEvent client event payload])
      with (steps ++ [Unmount] ++ [AuthEvent client event payload]).
    rewrite app_assoc, (run_snoc (steps ++ _)), run_snoc. cbn [step].
    destruct (unmount_subscribed _ _ Hw) as (_ & Hemitters & _).
    rewrite emit_no_listener; [done |]. rewrite Hemitters. constructor.
Qed.

Lemma stale_client_event_ignored_witness :
  session (run [Render (Some (client_ref 0));
                AuthEvent (client_ref 0) SIGNED_IN (Some a_session);
                Render (Some (client_ref 1));
                AuthEvent (client_ref 0) SIGNED_OUT None] (Home_init None))
  = Some a_session.
Proof.
  change [Render (Some (client_ref 0));
          AuthEvent (client_ref 0) SIGNED_IN (Some a_session);
          Render (Some (client_ref 1));
          AuthEvent (client_ref 0) SIGNED_OUT None]
    with ([Render (Some (client_ref 0));
           AuthEvent (client_ref 0) SIGNED_IN (Some a_session)]
          ++ [Render (Some (client_ref 1));
              AuthEvent (client_ref 0) SIGNED_OUT None]).
  rewrite (proj1 (stale_client_event_ignored
                    [Render (Some (client_ref 0));
                     AuthEvent (client_ref 0) SIGNED_IN (Some a_session)]
                    None (client_ref 0) SIGNED_OUT None)
             (Some (client_ref 1))); [reflexivity | discriminate].
Defined.

(** X14. An event of the current client reaches the page once: after a
    render with a client, one callback is registered, on that client;
    an event of the client calls it once, and the session cell is what
    one run of the callback leaves. *)
Theorem current_client_event_once (steps : list Step)
    (window : option (gmap jsstring jsstring)) (client : SupabaseClient)
    (event : jsstring) (payload : option Session) :
  let w := run (steps ++ [Render (Some client)]) (Home_init window) in
  let w' := state_of (step (AuthEvent client event payload) w) in
  ∃ s, emitters w = [s] ∧ sub_client s = client
       ∧ calls w' = calls w ++ [Callback s event payload]
       ∧ session w' = session (state_of (auth_callback event payload w)).
Proof.
  cbv zeta. rewrite run_snoc. cbn [step].
  destruct (run_subscribed steps window) as (live & Hw).
  destruct (commit_effect_subscribed (Some client) _ _ Hw)
    as (live' & (_ & Hemitters & _) & Hclient).
  destruct live' as [s |]; [| done]. injection Hclient as Hclient.
  exists s. split; [done |]. split; [done |].
  unfold emit. rewrite Hemitters.
  change (option_list (Some s)) with [s].
  rewrite filter_cons_True, filter_nil by done. cbn [foldr].
  split; [apply callback_called | apply callback_session].
Qed.

(** X15. No subscription is left behind: through every run of renders,
    unmounts and auth events, the subscriptions made are the
    subscriptions cancelled and the one callback still registered, if
    any; after the unmount every subscription made has been
    cancelled. *)
Theorem subscriptions_balanced (steps : list Step)
    (window : option (gmap jsstring jsstring)) :
  let w := run steps (Home_init window) in
  let unmounted := run (steps ++ [Unmount]) (Home_init window) in
  length (filter (fun c => is_subscribe c) (calls w))
  = (length (filter (fun c => is_unsubscribe c) (calls w))
     + length (emitters w))%nat
  ∧ length (filter (fun c => is_subscribe c) (calls unmounted))
    = length (filter (fun c => is_unsubscribe c) (calls unmounted)).
Proof.
  cbv zeta. split.
  - destruct (run_subscribed steps window) as (live & Hlog & -> & _).
    by apply lifecycle_balance in Hlog as [_ ?].
  - destruct (run_subscribed steps window) as (live & Hw).
    rewrite run_snoc. cbn [step].
    destruct (unmount_subscribed _ _ Hw) as (Hlog & _).
    apply lifecycle_balance in Hlog as [_ Hlog]. cbn in Hlog. lia.
Qed.

(** ** The provider checkboxes *)

Lemma indexOf_first (l : list jsstring) (p : jsstring) :
  p ∈ l →
  ∃ before after,
    l = before ++ p :: after ∧ (p ∉ before)
    ∧ indexOf l p = Z.of_nat (length before).
Proof.
  induction l as [| x l IH]; intros Hin; [by apply elem_of_nil in Hin |].
  cbn [indexOf]. case_bool_decide as Hx.
  - subst x. exists [], l. split; [done |]. split; [apply not_elem_of_nil | done].
  - apply elem_of_cons in Hin as [-> | Hin]; [done |].
    destruct (IH Hin) as (before & after & -> & Hbefore & ->).
    exists (x :: before), after. split; [done |]. split.
    + apply not_elem_of_cons. split; [congruence | done].
    + destruct (Z.ltb_spec (Z.of_nat (length before)) 0); cbn [length]; lia.
Qed.

Lemma splice_one {A} (before after : list A) (x : A) :
  splice (before ++ x :: after) (Z.of_nat (length before)) 1 = before ++ after.
Proof.
  unfold splice. rewrite length_app. cbn [length].
  destruct (Z.ltb_spec (Z.of_nat (length before)) 0) as [? | _]; [lia |].
  rewrite Z.min_l by lia.
  replace (Z.min (Z.max 1 0) _) with 1%Z by lia.
  rewrite Nat2Z.id. replace (Z.to_nat (Z.of_nat (length before) + 1))
    with (S (length before)) by lia.
  rewrite take_app_length.
  change (before ++ x :: after) with (before ++ [x] ++ after).
  rewrite app_assoc, drop_app_length'; [done |].
  rewrite length_app. cbn. lia.
Qed.

(** The handler, on a provider that is enabled and on one that is not. *)
Lemma AuthPanel_onChange_cases (l : list jsstring) (p : jsstring) :
  ((p ∈ l) ∧ ∃ before after,
             l = before ++ p :: after ∧ (p ∉ before)
             ∧ AuthPanel_onChange l p = before ++ after)
  ∨ ((p ∉ l) ∧ AuthPanel_onChange l p = l ++ [p]).
Proof.
  unfold AuthPanel_onChange, includes. case_bool_decide as Hin; [left | by right].
  split; [done |].
  destruct (indexOf_first l p Hin) as (before & after & Hl & Hbefore & Hindex).
  exists before, after. split; [done |]. split; [done |].
  cbv zeta. rewrite Hindex, Hl. apply splice_one.
Qed.

Lemma AuthPanel_onChange_flip (l : list jsstring) (p : jsstring) :
  NoDup l →
  NoDup (AuthPanel_onChange l p)
  ∧ (p ∈ AuthPanel_onChange l p ↔ p ∉ l)
  ∧ ∀ q, q ≠ p → (q ∈ AuthPanel_onChange l p ↔ q ∈ l).
Proof.
  intros Hnodup.
  destruct (AuthPanel_onChange_cases l p)
    as [(Hin & before & after & -> & Hbefore & ->) | (Hout & ->)].
  - apply NoDup_app in Hnodup as (Hb & Hdisjoint & Hafter).
    apply NoDup_cons in Hafter as [Hafter Ha].
    split; [| split].
    + apply NoDup_app. split; [done |]. split; [| done].
      intros q Hq Hq'. apply (Hdisjoint q Hq). by right.
    + split; [| done]. rewrite elem_of_app. by intros [? | ?].
    + intros q Hq. rewrite !elem_of_app, elem_of_cons. tauto.
  - split; [| split].
    + apply NoDup_app. split; [done |]. split; [| apply NoDup_singleton].
      intros q Hq ->%list_elem_of_singleton. done.
    + split; [done |]. intros _. apply elem_of_app. right. by left.
    + intros q Hq. rewrite elem_of_app, list_elem_of_singleton. tauto.
Qed.

(** X16. On a provider that is enabled, the handler of its checkbox
    takes out the first occurrence of the provider and nothing else:
    [indexOf] has found it, so [splice] is never given [-1], which
    would take out the last provider of the list. *)
Theorem AuthPanel_onChange_removes_provider (enabledProviders : list jsstring)
    (p : jsstring) :
  includes enabledProviders p = true →
  ∃ before after,
    enabledProviders = before ++ p :: after
    ∧ (p ∉ before)
    ∧ indexOf enabledProviders p = Z.of_nat (length before)
    ∧ AuthPanel_onChange enabledProviders p = before ++ after.
Proof.
  intros Hin%bool_decide_eq_true.
  destruct (indexOf_first _ _ Hin) as (before & after & Hl & Hbefore & Hindex).
  exists before, after. split; [done |]. split; [done |]. split; [done |].
  unfold AuthPanel_onChange, includes. rewrite bool_decide_eq_true_2 by done.
  cbv zeta. rewrite Hindex, Hl. apply splice_one.
Qed.

Lemma AuthPanel_onChange_removes_provider_witness :
  ∃ before after,
    [js "github"; js "google"; js "slack"] = before ++ js "google" :: after
    ∧ (js "google" ∉ before)
    ∧ indexOf [js "github"; js "google"; js "slack"] (js "google")
      = Z.of_nat (length before)
    ∧ AuthPanel_onChange [js "github"; js "google"; js "slack"] (js "google")
      = before ++ after.
Proof.
  apply AuthPanel_onChange_removes_provider. by vm_compute.
Defined.

Lemma AuthPanel_clicks_snoc (clicks : list jsstring) (p : jsstring) :
  AuthPanel_clicks (clicks ++ [p])
  = AuthPanel_onChange (AuthPanel_clicks clicks) p.
Proof. unfold AuthPanel_clicks. by rewrite foldl_snoc. Qed.

Lemma AuthPanel_clicks_NoDup (clicks : list jsstring) :
  NoDup (AuthPanel_clicks clicks).
Proof.
  induction clicks as [| p clicks IH] using rev_ind; [constructor |].
  rewrite AuthPanel_clicks_snoc. by apply AuthPanel_onChange_flip.
Qed.

(** X17. After any clicks on the checkboxes, no provider is enabled
    twice, and a provider is enabled exactly when its checkbox has been
    clicked an odd number of times. *)
Theorem AuthPanel_clicks_parity (clicks : list jsstring) :
  NoDup (AuthPanel_clicks clicks)
  ∧ ∀ p, p ∈ AuthPanel_clicks clicks
         ↔ Nat.odd (length (filter (fun q => q = p) clicks)) = true.
Proof.
  split; [apply AuthPanel_clicks_NoDup |].
  induction clicks as [| q clicks IH] using rev_ind; intros p.
  - split; [by intros ?%elem_of_nil | done].
  - rewrite AuthPanel_clicks_snoc, filter_app, length_app.
    destruct (AuthPanel_onChange_flip (AuthPanel_clicks clicks) q
                (AuthPanel_clicks_NoDup clicks)) as (_ & Hq & Hother).
    destruct (decide (q = p)) as [-> | Hne].
    + rewrite filter_cons_True, filter_nil by done. cbn [length].
      rewrite Hq, IH, Nat.add_1_r, Nat.odd_succ, <- Nat.negb_odd.
      by destruct (Nat.odd _).
    + rewrite filter_cons_False, filter_nil by done. cbn [length].
      rewrite Nat.add_0_r, <- IH. apply Hother. congruence.
Qed.

(** X18. When the clicks are on checkboxes of the page, the providers
    enabled are among the sixteen of the list, so at most sixteen. *)
Theorem AuthPanel_clicks_among_providers (clicks : list jsstring) :
  Forall (fun p => p ∈ providers) clicks →
  AuthPanel_clicks clicks ⊆ providers
  ∧ (length (AuthPanel_clicks clicks) ≤ 16)%nat.
Proof.
  intros Hclicks.
  assert (AuthPanel_clicks clicks ⊆ providers) as Hsub.
  { induction clicks as [| p clicks IH] using rev_ind;
      [by intros ? ?%elem_of_nil |].
    apply Forall_app in Hclicks as [Hclicks [Hp _]%Forall_cons].
    specialize (IH Hclicks).
    rewrite AuthPanel_clicks_snoc. intros q Hq.
    destruct (decide (q = p)) as [-> | Hne]; [done |].
    apply IH.
    by apply (AuthPanel_onChange_flip _ p (AuthPanel_clicks_NoDup clicks)). }
  split; [done |].
  change 16%nat with (length providers).
  apply submseteq_length, NoDup_submseteq; [apply AuthPanel_clicks_NoDup | done].
Qed.

Lemma AuthPanel_clicks_among_providers_witness :
  (length (AuthPanel_clicks [js "github"; js "google"; js "github"; js "slack"]) ≤ 16)%nat.
Proof.
  apply AuthPanel_clicks_among_providers.
  repeat (apply Forall_cons; split; [refine (bool_decide_unpack _ _); by vm_compute |]).
  constructor.
Defined.

(** ** What the page shows *)



(** ** From the inputs to the client *)

Lemma updateKey_accepted `{Platform} (candidate : jsstring) (w : World) :
  checkForServiceRole candidate = Normal false →
  let w' := state_of (updateKey candidate w) in
  key w' = Some candidate
  ∧ localStorage w' = <[KEY_STORAGE_KEY := candidate]> (localStorage w)
  ∧ url w' = url w ∧ next_client w' = next_client w.
Proof.
  intros Hcheck. rewrite updateKey_cases, Hcheck. done.
Qed.

Lemma truthy_string_filled (text : jsstring) :
  text ≠ [] → truthy_string (Some text) = Some text.
Proof. by destruct text. Qed.

(** X20. Typing a URL and a key that the guard clears, both not empty,
    gives the page its client as soon as the constructor accepts them:
    the function of [useMemo] then gives a client and clears the error
    cell, and the storage holds both texts. *)
Theorem typed_credentials_give_client `{Platform} (w : World) (u k : jsstring) :
  u ≠ [] → k ≠ [] →
  checkForServiceRole k = Normal false →
  createClient_throws u k = None →
  let w' := run_writes [WriteUrl u; WriteKey k] w in
  let w'' := state_of (supabase_memo w') in
  supabase_memo w' = (Normal (Some (client_ref (next_client w))), w'')
  ∧ error w'' = None
  ∧ localStorage w'' !! URL_STORAGE_KEY = Some u
  ∧ localStorage w'' !! KEY_STORAGE_KEY = Some k.
Proof.
  intros Hu Hk Hcheck Hok. cbv zeta.
  change (run_writes [WriteUrl u; WriteKey k] w)
    with (state_of (updateKey k (state_of (updateUrl u w)))).
  destruct (updateUrl_writes u w) as (Hurl1 & Hstorage1 & _ & _).
  destruct (updateKey_accepted k (state_of (updateUrl u w)) Hcheck)
    as (Hkey2 & Hstorage2 & Hurl2 & Hnext2).
  set (w2 := state_of (updateKey k (state_of (updateUrl u w)))) in *.
  rewrite supabase_memo_cases, Hkey2, Hurl2, Hurl1.
  rewrite !truthy_string_filled, Hok by done.
  unfold createClient. rewrite Hok.
  cbn [state_of snd setError error localStorage]. rewrite Hnext2.
  split; [done |]. split; [done |].
  rewrite Hstorage2, Hstorage1.
  rewrite lookup_insert_ne by (intros Heq; by apply storage_names_differ).
  by rewrite !lookup_insert_eq.
Qed.

Lemma typed_credentials_give_client_witness :
  let w' := run_writes [WriteUrl (js "https://project.supabase.co");
                        WriteKey anon_token] (Home_init (Some ∅)) in
  supabase_memo w'
  = (Normal (Some (client_ref 0)), state_of (supabase_memo w'))
  ∧ error (state_of (supabase_memo w')) = None.
Proof.
  destruct (typed_credentials_give_client (Home_init (Some ∅))
              (js "https://project.supabase.co") anon_token)
    as (Hrun & Herror & _); [done | done | by vm_compute | reflexivity |].
  split; [exact Hrun | exact Herror].
Defined.

(** X21. The two inputs are independent: typing the key then the URL
    leaves the cells and the storage as typing the URL then the key
    does, whether the key is accepted or refused. *)
Theorem inputs_commute `{Platform} (w : World) (u k : jsstring) :
  let w1 := run_writes [WriteKey k; WriteUrl u] w in
  let w2 := run_writes [WriteUrl u; WriteKey k] w in
  url w1 = url w2 ∧ key w1 = key w2 ∧ localStorage w1 = localStorage w2
  ∧ session w1 = session w2 ∧ error w1 = error w2.
Proof.
  cbv zeta. unfold run_writes. cbn [foldl write].
  rewrite !updateKey_cases.
  destruct (checkForServiceRole k) as [[] | e];
    cbv [updateUrl state_of mbind M_bind mret M_ret setKey setUrl alert
         localStorage_setItem record_call snd
         url key localStorage session error];
    repeat split.
  apply insert_insert_ne, storage_names_differ.
Qed.
